(** * CodeStream: the bytecode cursor and opcode-validity classifier of
    [eth/vm/code_stream.py]

    A shallow embedding of the class [CodeStream] and a verification of its
    cursor operations, of the scoped [seek] guard and of the memoised
    classifier [is_valid_opcode].

    Python integers are [Z]; a [bytes] object is a [list Z] of byte values;
    the two memo sets are [gset Z]; methods are state transformers that
    return either a value or a raised exception together with the object
    as the call left it. *)

From Stdlib Require Import ZArith List Lia.
From stdpp Require Import base decidable option list gmap sets.

Local Open Scope Z_scope.

(** ** Python values and exceptions *)

Inductive exn : Type :=
| ValueError
| IndexError
| TypeError
| OverflowError
| RecursionError
| OtherError.

Inductive outcome (A : Type) : Type :=
| Return (a : A)
| Raise (e : exn).
Arguments Return {A} a.
Arguments Raise {A} e.

(** [len(b)] *)
Definition len (b : list Z) : Z := Z.of_nat (length b).

(** [b[i]] on a [bytes] object: a negative index counts from the end, an
    index outside [-len, len) raises [IndexError]. *)
Definition bytes_getitem (b : list Z) (i : Z) : outcome Z :=
  let j := if i <? 0 then i + len b else i in
  if (0 <=? j) && (j <? len b)
  then match b !! Z.to_nat j with
       | Some x => Return x
       | None => Raise IndexError
       end
  else Raise IndexError.

(** [b[lo:hi]] on a [bytes] object, for integer bounds. *)
Definition slice_index (n i : Z) : Z :=
  if i <? 0 then Z.max 0 (i + n) else Z.min i n.

Definition bytes_slice (b : list Z) (lo hi : Z) : list Z :=
  let lo' := slice_index (len b) lo in
  let hi' := slice_index (len b) hi in
  take (Z.to_nat (hi' - lo')) (drop (Z.to_nat lo') b).

(** [ord(b)]: defined on a [bytes] object of length one. *)
Definition ord (b : list Z) : outcome Z :=
  match b with
  | [x] => Return x
  | _ => Raise TypeError
  end.

(** [range(start, 0, -1)]: [start, start - 1, ..., 1], empty when
    [start <= 0]. *)
Definition range_down (start : Z) : list Z :=
  (λ k, start - Z.of_nat k) <$> seq 0 (Z.to_nat start).

(** ** [io.BytesIO]

    The part of the standard library's in-memory stream that [CodeStream]
    uses: [read], [tell], and [seek] with the default [whence].  The class
    is the C one, whose methods take their integer argument as a C
    [Py_ssize_t]: an argument that does not fit raises [OverflowError]
    before the method does anything. *)

Definition ssize_t_min : Z := - 2 ^ 63.
Definition ssize_t_max : Z := 2 ^ 63 - 1.

Record BytesIO : Type := mkBytesIO {
  _buffer : list Z;
  _pos : Z
}.

Module BytesIO_.

Definition new (initial_bytes : list Z) : BytesIO :=
  {| _buffer := initial_bytes; _pos := 0 |}.

(** [read(size)]: a negative [size] reads to the end; at or past the end
    nothing is read and the position stays. *)
Definition read (size : Z) (io : BytesIO) : outcome (list Z) * BytesIO :=
  if (size <? ssize_t_min) || (ssize_t_max <? size) then (Raise OverflowError, io)
  else
    let size := if size <? 0 then len (_buffer io) else size in
    if len (_buffer io) <=? _pos io then (Return [], io)
    else
      let newpos := Z.min (len (_buffer io)) (_pos io + size) in
      (Return (bytes_slice (_buffer io) (_pos io) newpos),
       {| _buffer := _buffer io; _pos := newpos |}).

Definition tell (io : BytesIO) : Z := _pos io.

(** [seek(pos)]: a negative [pos] is refused, with [OverflowError] below
    the least [Py_ssize_t] and with [ValueError] from there to [-1].  A
    [pos] above the greatest [Py_ssize_t] would be refused too;
    [CodeStream] only passes [min(value, len(self))], which is at most the
    length of a [bytes] object and so at most the greatest [Py_ssize_t]. *)
Definition seek (pos : Z) (io : BytesIO) : outcome Z * BytesIO :=
  if pos <? ssize_t_min then (Raise OverflowError, io)
  else if pos <? 0 then (Raise ValueError, io)
  else (Return pos, {| _buffer := _buffer io; _pos := pos |}).

End BytesIO_.

(** ** The opcode table

    [eth/vm/opcode_values.py] is not among the sources.  [CodeStream] reads
    three of its constants; they are taken as an interface, and most of the
    development holds for every table. *)

Class opcode_values : Type := {
  STOP : Z;
  PUSH1 : Z;
  PUSH32 : Z
}.

(** Modelled from the spec: the constants [STOP], [PUSH1] and [PUSH32] of
    [eth/vm/opcode_values.py], which is missing.  The spec fixes the push
    family as the contiguous range of 32 opcodes from [PUSH1] (width 1) to
    [PUSH32] (width 32) and the terminator as the VM's STOP code; the values
    are those of the EVM instruction set. *)
Definition evm_opcode_values : opcode_values :=
  {| STOP := 0x00; PUSH1 := 0x60; PUSH32 := 0x7f |}.

(** [PUSH2] is [PUSH1 + 1]: the opcode encodes the width as
    [opcode - PUSH1 + 1]. *)
Definition PUSH2 `{opcode_values} : Z := PUSH1 + 1.

(** ** The object and its methods *)

Record CodeStream : Type := mkCodeStream {
  stream : BytesIO;
  _length_cache : Z;
  _raw_code_bytes : list Z;
  invalid_positions : gset Z;
  valid_positions : gset Z
}.

(** A method call: it runs on the object and leaves a returned value or a
    raised exception, and the object as mutated up to that point. *)
Definition action (A : Type) : Type := CodeStream → outcome A * CodeStream.

Definition action_ret {A} (a : A) : action A := λ self, (Return a, self).

Definition action_bind {A B} (m : action A) (k : A → action B) : action B :=
  λ self,
    match m self with
    | (Return a, self') => k a self'
    | (Raise e, self') => (Raise e, self')
    end.

Definition raise {A} (e : exn) : action A := λ self, (Raise e, self).

Notation "x <- m ;; k" := (action_bind m (λ x, k))
  (at level 100, m at next level, right associativity).
Notation "m ;;; k" := (action_bind m (λ _, k))
  (at level 100, right associativity).

(** [try: body finally: handler] *)
Definition try_finally {A} (body : action A) (handler : action unit) : action A :=
  λ self,
    let '(r, self1) := body self in
    match handler self1 with
    | (Return _, self2) => (r, self2)
    | (Raise e, self2) => (Raise e, self2)
    end.

(** [try: body except Exception: pass] *)
Definition try_except_pass (body : action unit) : action unit :=
  λ self, (Return tt, (body self).2).

(** A generator that reads immutable data only: the values it yields, in
    order, ended by exhaustion or by an exception. *)
Inductive generator (A : Type) : Type :=
| StopIteration
| Yield (a : A) (rest : generator A)
| GenRaise (e : exn).
Arguments StopIteration {A}.
Arguments Yield {A} a rest.
Arguments GenRaise {A} e.

Definition set_stream (io : BytesIO) (self : CodeStream) : CodeStream :=
  {| stream := io;
     _length_cache := _length_cache self;
     _raw_code_bytes := _raw_code_bytes self;
     invalid_positions := invalid_positions self;
     valid_positions := valid_positions self |}.

(** [self.invalid_positions.add(position)] *)
Definition invalid_positions_add (position : Z) : action unit :=
  λ self,
    (Return tt,
     {| stream := stream self;
        _length_cache := _length_cache self;
        _raw_code_bytes := _raw_code_bytes self;
        invalid_positions := {[position]} ∪ invalid_positions self;
        valid_positions := valid_positions self |}).

(** [self.valid_positions.add(position)] *)
Definition valid_positions_add (position : Z) : action unit :=
  λ self,
    (Return tt,
     {| stream := stream self;
        _length_cache := _length_cache self;
        _raw_code_bytes := _raw_code_bytes self;
        invalid_positions := invalid_positions self;
        valid_positions := {[position]} ∪ valid_positions self |}).

Definition __init__ (code_bytes : list Z) : CodeStream :=
  {| stream := BytesIO_.new code_bytes;
     _raw_code_bytes := code_bytes;
     _length_cache := len code_bytes;
     invalid_positions := ∅;
     valid_positions := ∅ |}.

Definition read (size : Z) : action (list Z) :=
  λ self,
    let '(data, io) := BytesIO_.read size (stream self) in
    (data, set_stream io self).

Definition __len__ (self : CodeStream) : Z := _length_cache self.

Definition __iter__ (self : CodeStream) : CodeStream := self.

Definition __getitem__ (i : Z) : action Z :=
  λ self, (bytes_getitem (_raw_code_bytes self) i, self).

Section Methods.
Context `{opcode_values}.

Definition _next : action Z :=
  next_opcode_as_byte <- read 1 ;;
  match next_opcode_as_byte with
  | _ :: _ => λ self, (ord next_opcode_as_byte, self)
  | [] => action_ret STOP
  end.

Definition __next__ : action Z := _next.

(** the [pc] property: getter and setter *)
Definition pc (self : CodeStream) : Z := BytesIO_.tell (stream self).

Definition pc_get : action Z := λ self, (Return (pc self), self).

Definition pc_set (value : Z) : action unit :=
  λ self,
    match BytesIO_.seek (Z.min value (__len__ self)) (stream self) with
    | (Return _, io) => (Return tt, set_stream io self)
    | (Raise e, io) => (Raise e, set_stream io self)
    end.

Definition peek : action Z :=
  current_pc <- pc_get ;;
  next_opcode <- __next__ ;;
  pc_set current_pc ;;;
  action_ret next_opcode.

(** [with self.seek(pc): body] *)
Definition seek {A} (pc : Z) (body : action A) : action A :=
  anchor_pc <- pc_get ;;
  pc_set pc ;;;
  try_finally body (pc_set anchor_pc).

(** The loop of [_potentially_disqualifying_opcode_positions] over the
    values of [bytes_back] still to come. *)
Fixpoint disqualifying_from (raw : list Z) (position : Z)
    (bytes_back_range : list Z) : generator Z :=
  match bytes_back_range with
  | [] => StopIteration
  | bytes_back :: later =>
      let earlier_position := position - bytes_back in
      match bytes_getitem raw earlier_position with
      | Raise e => GenRaise e
      | Return opcode =>
          if (PUSH1 + (bytes_back - 1) <=? opcode) && (opcode <=? PUSH32)
          then Yield earlier_position (disqualifying_from raw position later)
          else disqualifying_from raw position later
      end
  end.

Definition _potentially_disqualifying_opcode_positions
    (self : CodeStream) (position : Z) : generator Z :=
  let deepest_lookback := Z.min 32 position in
  disqualifying_from (_raw_code_bytes self) position (range_down deepest_lookback).

(** The [for disqualifier in ...] loop of [is_valid_opcode] and the two
    statements after it; [check] is the recursive call. *)
Fixpoint for_disqualifier (check : Z → action bool) (position : Z)
    (disqualifiers : generator Z) : action bool :=
  match disqualifiers with
  | Yield disqualifier rest =>
      live <- check disqualifier ;;
      if (live : bool)
      then invalid_positions_add position ;;; action_ret false
      else for_disqualifier check position rest
  | StopIteration =>
      valid_positions_add position ;;; action_ret true
  | GenRaise e => raise e
  end.

(** [is_valid_opcode]. [depth] is the number of nested activations of the
    method that the interpreter's stack still admits: the call itself
    takes one, each recursive call runs with one less, and none left
    raises [RecursionError]. *)
Fixpoint is_valid_opcode (depth : nat) (position : Z) : action bool :=
  match depth with
  | O => raise RecursionError
  | S depth' =>
      λ self,
        if position >=? _length_cache self then (Return false, self)
        else if decide (position ∈ invalid_positions self) then (Return false, self)
        else if decide (position ∈ valid_positions self) then (Return true, self)
        else
          for_disqualifier (is_valid_opcode depth') position
            (_potentially_disqualifying_opcode_positions self position) self
  end.

End Methods.

(** ** Callers

    What a caller can do with the object: the public methods, nested
    [with self.seek(pc):] blocks, raising an exception of its own and
    catching one.  A call of [is_valid_opcode] comes with the number of
    nested activations the stack admits where it is made. *)

#[local] Unset Elimination Schemes.
Inductive op : Type :=
| OpRead (size : Z)
| OpLen
| OpNext
| OpGetItem (i : Z)
| OpPeek
| OpGetPc
| OpSetPc (value : Z)
| OpIsValidOpcode (depth : nat) (position : Z)
| OpSeek (pc : Z) (body : list op)
| OpTry (body : list op)
| OpRaise (e : exn).
#[local] Set Elimination Schemes.

(** Drop the value a call returns. *)
Definition void {A} (m : action A) : action unit := _ <- m ;; action_ret tt.

Section Callers.
Context `{opcode_values}.

(** A block of statements: the first exception ends it. *)
Fixpoint run_block (run : op → action unit) (body : list op) : action unit :=
  match body with
  | [] => action_ret tt
  | o :: body' => run o ;;; run_block run body'
  end.

Fixpoint run_op (o : op) : action unit :=
  match o with
  | OpRead size => void (read size)
  | OpLen => void (λ self, (Return (__len__ self), self))
  | OpNext => void __next__
  | OpGetItem i => void (__getitem__ i)
  | OpPeek => void peek
  | OpGetPc => void pc_get
  | OpSetPc value => pc_set value
  | OpIsValidOpcode depth position => void (is_valid_opcode depth position)
  | OpSeek pc body => seek pc (run_block run_op body)
  | OpTry body => try_except_pass (run_block run_op body)
  | OpRaise e => raise e
  end.

(** A sequence of operations by a caller that goes on after an
    exception: the object each one leaves is the next one's. *)
Definition run_ops (ops : list op) (self : CodeStream) : CodeStream :=
  foldl (λ s o, (run_op o s).2) self ops.

(** [n] calls of [next()] in a row, with the values they return. *)
Fixpoint next_times (n : nat) : action (list Z) :=
  match n with
  | O => action_ret []
  | S n' => x <- __next__ ;; xs <- next_times n' ;; action_ret (x :: xs)
  end.

(** [n] calls of [peek()] in a row, with the values they return. *)
Fixpoint peek_times (n : nat) : action (list Z) :=
  match n with
  | O => action_ret []
  | S n' => x <- peek ;; xs <- peek_times n' ;; action_ret (x :: xs)
  end.

End Callers.

(** ** Invariants *)

(** What [__init__] establishes about the fields and every method keeps:
    the stream reads the code, the cached length is its length, and the
    cursor is inside [0, length]. *)
Record wf (self : CodeStream) : Prop := {
  wf_buffer : _buffer (stream self) = _raw_code_bytes self;
  wf_length : _length_cache self = len (_raw_code_bytes self);
  wf_pos : 0 ≤ pc self ≤ _length_cache self
}.

(** How the object may differ after a call: the code is the same and the
    memo has only grown, without mixing the two sets. *)
Record evolves (s s' : CodeStream) : Prop := {
  ev_buffer : _buffer (stream s') = _buffer (stream s);
  ev_raw : _raw_code_bytes s' = _raw_code_bytes s;
  ev_len : _length_cache s' = _length_cache s;
  ev_valid : valid_positions s ⊆ valid_positions s';
  ev_invalid : invalid_positions s ⊆ invalid_positions s';
  ev_disjoint :
    valid_positions s ## invalid_positions s →
    valid_positions s' ## invalid_positions s';
  ev_keeps_valid : ∀ q,
    q ∈ valid_positions s → q ∉ invalid_positions s → q ∉ invalid_positions s'
}.

(** What a classification of [p] may change: the memo only, and in it only
    entries at [p] or before. *)
Record classified_upto (p : Z) (s s' : CodeStream) : Prop := {
  cu_evolves : evolves s s';
  cu_stream : stream s' = stream s;
  cu_valid_new : ∀ q, q ∈ valid_positions s' → q ∈ valid_positions s ∨ q ≤ p;
  cu_invalid_new : ∀ q, q ∈ invalid_positions s' → q ∈ invalid_positions s ∨ q ≤ p
}.

(** The values a generator yields, and whether it ends by exhaustion. *)
Fixpoint yields {A} (g : generator A) : list A :=
  match g with
  | Yield a rest => a :: yields rest
  | StopIteration | GenRaise _ => []
  end.

Fixpoint exhausts {A} (g : generator A) : Prop :=
  match g with
  | StopIteration => True
  | Yield _ rest => exhausts rest
  | GenRaise _ => False
  end.

(** The reference the memo is measured against, the classification with
    no memo: a position is a real opcode when no push that reaches it from
    the lookback window is itself a real opcode.  The candidates are those
    of the generator; [fuel] bounds the recursion, and
    [S (Z.to_nat position)] is enough. *)
Fixpoint is_real_opcode `{opcode_values} (fuel : nat) (raw : list Z)
    (position : Z) : bool :=
  match fuel with
  | O => true
  | S fuel' =>
      forallb (λ earlier, negb (is_real_opcode fuel' raw earlier))
        (yields (disqualifying_from raw position (range_down (Z.min 32 position))))
  end.

Definition real_opcode `{opcode_values} (raw : list Z) (position : Z) : bool :=
  is_real_opcode (S (Z.to_nat position)) raw position.

(** The memo holds nothing but right answers. *)
Definition memo_sound `{opcode_values} (s : CodeStream) : Prop :=
  ∀ q,
    (q ∈ valid_positions s → real_opcode (_raw_code_bytes s) q = true) ∧
    (q ∈ invalid_positions s → real_opcode (_raw_code_bytes s) q = false).

(** A method call that keeps the invariants. *)
Definition preserves `{opcode_values} {A} (m : action A) : Prop :=
  ∀ s,
    evolves s (m s).2 ∧
    (wf s → wf (m s).2) ∧
    (memo_sound s → memo_sound (m s).2).

(** A method call that keeps a property of the object. *)
Definition keeps {A} (I : CodeStream → Prop) (m : action A) : Prop :=
  ∀ s, I s → I (m s).2.

(** A method call that returns. *)
Definition returns {A} (m : action A) (s : CodeStream) : Prop :=
  ∃ a s', m s = (Return a, s').

(** ** Basic facts: ranges, indexing, the relations between states *)

Lemma elem_of_range_down (start b : Z) : b ∈ range_down start ↔ 1 ≤ b ≤ start.
Proof.
  unfold range_down. rewrite list_elem_of_fmap. split.
  - intros (k & -> & Hk). apply elem_of_seq in Hk. lia.
  - intros Hb. exists (Z.to_nat (start - b)). split; [lia|].
    apply elem_of_seq. lia.
Qed.

Lemma bytes_getitem_in_range (b : list Z) (i : Z) :
  0 ≤ i < len b → ∃ x, bytes_getitem b i = Return x.
Proof.
  intros Hi. unfold bytes_getitem, len in *.
  destruct (Z.ltb_spec i 0); [lia|].
  destruct (Z.leb_spec 0 i); [|lia].
  destruct (Z.ltb_spec i (Z.of_nat (length b))); [|lia]. simpl.
  destruct (lookup_lt_is_Some_2 b (Z.to_nat i)) as [x Hx]; [lia|].
  rewrite Hx. eauto.
Qed.

(** The stream's methods on arguments that fit, and on those that do not. *)
Lemma BytesIO_read_fits (size : Z) (io : BytesIO) :
  ssize_t_min ≤ size ≤ ssize_t_max →
  BytesIO_.read size io
  = (let size := if size <? 0 then len (_buffer io) else size in
     if len (_buffer io) <=? _pos io then (Return [], io)
     else
       let newpos := Z.min (len (_buffer io)) (_pos io + size) in
       (Return (bytes_slice (_buffer io) (_pos io) newpos),
        {| _buffer := _buffer io; _pos := newpos |})).
Proof.
  intros Hsize. unfold BytesIO_.read.
  destruct (Z.ltb_spec size ssize_t_min); [lia|].
  by destruct (Z.ltb_spec ssize_t_max size); [lia|].
Qed.

Lemma BytesIO_read_overflow (size : Z) (io : BytesIO) :
  ¬ (ssize_t_min ≤ size ≤ ssize_t_max) →
  BytesIO_.read size io = (Raise OverflowError, io).
Proof.
  intros Hsize. unfold BytesIO_.read.
  destruct (Z.ltb_spec size ssize_t_min); [done|].
  by destruct (Z.ltb_spec ssize_t_max size); [|lia].
Qed.

(** Whatever [read] does, it changes the position only, and keeps it
    inside the buffer. *)
Lemma BytesIO_read_stream (size : Z) (io : BytesIO) :
  _buffer (BytesIO_.read size io).2 = _buffer io ∧
  (0 ≤ _pos io ≤ len (_buffer io) →
   0 ≤ _pos (BytesIO_.read size io).2 ≤ len (_buffer io)).
Proof.
  destruct (decide (ssize_t_min ≤ size ≤ ssize_t_max)) as [Hsize|Hsize].
  - rewrite (BytesIO_read_fits size io Hsize). simpl.
    destruct (Z.leb_spec (len (_buffer io)) (_pos io)); simpl; [done|].
    split; [done|]. destruct (Z.ltb_spec size 0); unfold len; lia.
  - by rewrite (BytesIO_read_overflow size io Hsize).
Qed.

Lemma BytesIO_seek_nonneg (pos : Z) (io : BytesIO) :
  0 ≤ pos →
  BytesIO_.seek pos io = (Return pos, {| _buffer := _buffer io; _pos := pos |}).
Proof.
  intros Hpos. unfold BytesIO_.seek, ssize_t_min.
  destruct (Z.ltb_spec pos (- 2 ^ 63)); [lia|].
  by destruct (Z.ltb_spec pos 0); [lia|].
Qed.

Lemma BytesIO_seek_negative (pos : Z) (io : BytesIO) :
  pos < 0 →
  BytesIO_.seek pos io
  = (Raise (if pos <? ssize_t_min then OverflowError else ValueError), io).
Proof.
  intros Hpos. unfold BytesIO_.seek.
  destruct (pos <? ssize_t_min); [done|].
  by destruct (Z.ltb_spec pos 0); [|lia].
Qed.

Lemma evolves_refl (s : CodeStream) : evolves s s.
Proof. split; auto. Qed.

Lemma evolves_trans (s1 s2 s3 : CodeStream) :
  evolves s1 s2 → evolves s2 s3 → evolves s1 s3.
Proof.
  intros [B1 R1 L1 V1 I1 D1 K1] [B2 R2 L2 V2 I2 D2 K2].
  split; try congruence; set_solver.
Qed.

Lemma evolves_set_stream (io : BytesIO) (s : CodeStream) :
  _buffer io = _buffer (stream s) → evolves s (set_stream io s).
Proof. intros Hb. split; simpl; auto. Qed.

Lemma classified_upto_refl (p : Z) (s : CodeStream) : classified_upto p s s.
Proof. split; auto using evolves_refl. Qed.

Lemma classified_upto_trans (p1 p2 p : Z) (s1 s2 s3 : CodeStream) :
  p1 ≤ p → p2 ≤ p →
  classified_upto p1 s1 s2 → classified_upto p2 s2 s3 → classified_upto p s1 s3.
Proof.
  intros H1 H2 [E1 S1 V1 I1] [E2 S2 V2 I2]. split.
  - eauto using evolves_trans.
  - congruence.
  - intros q Hq. destruct (V2 q Hq) as [Hq'|]; [|lia].
    destruct (V1 q Hq'); [auto|lia].
  - intros q Hq. destruct (I2 q Hq) as [Hq'|]; [|lia].
    destruct (I1 q Hq'); [auto|lia].
Qed.

(** Memoising a position that is in neither set. *)
Lemma classified_upto_add_invalid (p : Z) (s : CodeStream) :
  p ∉ valid_positions s →
  classified_upto p s (invalid_positions_add p s).2.
Proof.
  intros Hv. split; [split|..]; simpl; auto; set_solver.
Qed.

Lemma classified_upto_add_valid (p : Z) (s : CodeStream) :
  p ∉ invalid_positions s →
  classified_upto p s (valid_positions_add p s).2.
Proof.
  intros Hv. split; [split|..]; simpl; auto; set_solver.
Qed.

Lemma wf_classified_upto (p : Z) (s s' : CodeStream) :
  classified_upto p s s' → wf s → wf s'.
Proof.
  intros [[B R L _ _ _ _] S _ _] [W1 W2 W3].
  split; unfold pc in *; rewrite ?S; congruence.
Qed.

(** ** The combinators keep the invariants *)

Section Combinators.
Context `{opcode_values}.

Lemma preserves_ret {A} (a : A) : preserves (action_ret a).
Proof. intros s. simpl. auto using evolves_refl. Qed.

Lemma preserves_raise {A} (e : exn) : preserves (raise (A:=A) e).
Proof. intros s. simpl. auto using evolves_refl. Qed.

Lemma preserves_bind {A B} (m : action A) (k : A → action B) :
  preserves m → (∀ a, preserves (k a)) → preserves (action_bind m k).
Proof.
  intros Hm Hk s. unfold action_bind.
  destruct (Hm s) as (E1 & W1 & M1).
  destruct (m s) as [[a|e] s1]; simpl in *; [|auto].
  destruct (Hk a s1) as (E2 & W2 & M2).
  split; [eauto using evolves_trans|auto].
Qed.

Lemma preserves_void {A} (m : action A) : preserves m → preserves (void m).
Proof. intros Hm. apply preserves_bind; auto using preserves_ret. Qed.

Lemma preserves_try_finally {A} (body : action A) (handler : action unit) :
  preserves body → preserves handler → preserves (try_finally body handler).
Proof.
  intros Hb Hh s. unfold try_finally.
  destruct (Hb s) as (E1 & W1 & M1). destruct (body s) as [r s1]; simpl in *.
  destruct (Hh s1) as (E2 & W2 & M2).
  destruct (handler s1) as [[[]|e] s2]; simpl in *;
    (split; [eauto using evolves_trans|auto]).
Qed.

Lemma preserves_try_except_pass (body : action unit) :
  preserves body → preserves (try_except_pass body).
Proof. intros Hb s. apply (Hb s). Qed.

Lemma preserves_pure {A} (f : CodeStream → outcome A) :
  preserves (λ self, (f self, self)).
Proof. intros s. simpl. auto using evolves_refl. Qed.

(** A call that only moves the stream. *)
Lemma preserves_set_stream {A} (m : action A) :
  (∀ s, ∃ io, (m s).2 = set_stream io s ∧
              _buffer io = _buffer (stream s) ∧
              (0 ≤ _pos (stream s) ≤ len (_buffer (stream s)) →
               0 ≤ _pos io ≤ len (_buffer (stream s)))) →
  preserves m.
Proof.
  intros Hm s. destruct (Hm s) as (io & -> & Hbuf & Hpos).
  split; [by apply evolves_set_stream|]. split; [|done].
  intros [W1 W2 W3]. split; simpl; [congruence|done|].
  unfold pc, BytesIO_.tell in *. simpl. rewrite W1, <- W2 in Hpos. auto.
Qed.

End Combinators.

(** ** The cursor methods keep the invariants *)

Section CursorInvariants.
Context `{opcode_values}.

Lemma preserves_read (size : Z) : preserves (read size).
Proof.
  apply preserves_set_stream. intros s. unfold read.
  destruct (BytesIO_read_stream size (stream s)) as [Hbuf Hpos].
  destruct (BytesIO_.read size (stream s)) as [r io]. simpl in *.
  by exists io.
Qed.

Lemma pc_set_nonneg (value : Z) (s : CodeStream) :
  0 ≤ Z.min value (__len__ s) →
  pc_set value s
  = (Return tt,
     set_stream {| _buffer := _buffer (stream s);
                   _pos := Z.min value (__len__ s) |} s).
Proof. intros Hpos. unfold pc_set. by rewrite BytesIO_seek_nonneg. Qed.

Lemma pc_set_negative (value : Z) (s : CodeStream) :
  Z.min value (__len__ s) < 0 →
  pc_set value s
  = (Raise (if Z.min value (__len__ s) <? ssize_t_min
            then OverflowError else ValueError), s).
Proof.
  intros Hpos. unfold pc_set. rewrite BytesIO_seek_negative by done.
  by destruct s.
Qed.

Lemma preserves_pc_set (value : Z) : preserves (pc_set value).
Proof.
  intros s.
  destruct (Z.lt_ge_cases (Z.min value (__len__ s)) 0) as [Hneg|Hpos].
  - rewrite pc_set_negative by done. simpl. auto using evolves_refl.
  - rewrite pc_set_nonneg by lia. simpl.
    split; [apply evolves_set_stream; auto|]. split; [|done].
    intros [W1 W2 W3]. split; simpl; auto.
    unfold pc, BytesIO_.tell, __len__ in *. simpl. lia.
Qed.

Lemma preserves_pc_get : preserves pc_get.
Proof. apply preserves_pure. Qed.

Lemma preserves_getitem (i : Z) : preserves (__getitem__ i).
Proof. apply preserves_pure. Qed.

Lemma preserves_next : preserves __next__.
Proof.
  apply preserves_bind; [apply preserves_read|].
  intros [|x l]; [apply preserves_ret|apply preserves_pure].
Qed.

Lemma preserves_peek : preserves peek.
Proof.
  unfold peek.
  apply preserves_bind; [apply preserves_pc_get|]. intros current_pc.
  apply preserves_bind; [apply preserves_next|]. intros next_opcode.
  apply preserves_bind; [apply preserves_pc_set|]. intros _.
  apply preserves_ret.
Qed.

Lemma preserves_seek {A} (target : Z) (body : action A) :
  preserves body → preserves (seek target body).
Proof.
  intros Hb. unfold seek.
  apply preserves_bind; [apply preserves_pc_get|]. intros anchor_pc.
  apply preserves_bind; [apply preserves_pc_set|]. intros _.
  apply preserves_try_finally; auto using preserves_pc_set.
Qed.

End CursorInvariants.

(** ** The classifier *)

Section Classifier.
Context `{opcode_values}.

(** What the generator yields lies in the lookback window. *)
Lemma disqualifying_from_yields (raw : list Z) (p : Z) (bs : list Z) (d : Z) :
  d ∈ yields (disqualifying_from raw p bs) → ∃ b, b ∈ bs ∧ d = p - b.
Proof.
  induction bs as [|b bs IH]; simpl; [by intros ?%elem_of_nil|].
  destruct (bytes_getitem raw (p - b)) as [opcode|e]; [|by intros ?%elem_of_nil].
  destruct ((PUSH1 + (b - 1) <=? opcode) && (opcode <=? PUSH32)); simpl.
  - intros [->|Hd]%elem_of_cons; [exists b; split; [left|done]|].
    destruct (IH Hd) as (b' & ? & ?). exists b'. split; [by right|done].
  - intros Hd. destruct (IH Hd) as (b' & ? & ?). exists b'. split; [by right|done].
Qed.

Lemma lookback_window (raw : list Z) (p d : Z) :
  d ∈ yields (disqualifying_from raw p (range_down (Z.min 32 p))) →
  0 ≤ d < p ∧ p - 32 ≤ d.
Proof.
  intros (b & Hb & ->)%disqualifying_from_yields.
  apply elem_of_range_down in Hb. lia.
Qed.

Lemma potentially_disqualifying_window (self : CodeStream) (p d : Z) :
  d ∈ yields (_potentially_disqualifying_opcode_positions self p) →
  0 ≤ d < p ∧ p - 32 ≤ d.
Proof. apply lookback_window. Qed.

(** The generator never indexes outside the code. *)
Lemma disqualifying_from_exhausts (raw : list Z) (p : Z) (bs : list Z) :
  (∀ b, b ∈ bs → 0 ≤ p - b < len raw) →
  exhausts (disqualifying_from raw p bs).
Proof.
  induction bs as [|b bs IH]; simpl; [done|]. intros Hbs.
  destruct (bytes_getitem_in_range raw (p - b)) as [opcode ->];
    [apply Hbs; left|].
  assert (exhausts (disqualifying_from raw p bs))
    by (apply IH; intros; apply Hbs; by right).
  by destruct ((PUSH1 + (b - 1) <=? opcode) && (opcode <=? PUSH32)).
Qed.

Lemma potentially_disqualifying_exhausts (self : CodeStream) (p : Z) :
  p < len (_raw_code_bytes self) →
  exhausts (_potentially_disqualifying_opcode_positions self p).
Proof.
  intros Hp. apply disqualifying_from_exhausts.
  intros b Hb%elem_of_range_down. lia.
Qed.

(** The loop, given what the recursive calls do. *)
Lemma for_disqualifier_spec (check : Z → action bool) (p : Z) (g : generator Z) :
  (∀ d s, d ∈ yields g → classified_upto d s (check d s).2) →
  (∀ d, d ∈ yields g → d < p) →
  ∀ s0 s,
    p ∉ valid_positions s0 → p ∉ invalid_positions s0 →
    classified_upto (p - 1) s0 s →
    let r := for_disqualifier check p g s in
    classified_upto p s0 r.2 ∧
    (r.1 = Return true → p ∈ valid_positions r.2 ∧ p ∉ invalid_positions r.2) ∧
    (r.1 = Return false → p ∈ invalid_positions r.2).
Proof.
  induction g as [|d rest IH|e]; intros Hcheck Hlt s0 s Hv Hi Hs; simpl.
  - assert (p ∉ invalid_positions s)
      by (intros [?|?]%(cu_invalid_new _ _ _ Hs); [done|lia]).
    split; [|split; [intros _; set_solver|done]].
    eapply (classified_upto_trans (p - 1) p); [lia|lia|done|].
    by apply classified_upto_add_valid.
  - unfold action_bind.
    pose proof (Hcheck d s ltac:(simpl; left)) as Hd.
    pose proof (Hlt d ltac:(simpl; left)) as Hdp.
    destruct (check d s) as [[[]|e] s1]; simpl in *.
    + assert (classified_upto (p - 1) s0 s1) as Hs1
        by (eapply (classified_upto_trans (p - 1) d); [lia|lia|done|done]).
      assert (p ∉ valid_positions s1)
        by (intros [?|?]%(cu_valid_new _ _ _ Hs1); [done|lia]).
      split; [|split; [done|intros _; set_solver]].
      eapply (classified_upto_trans (p - 1) p); [lia|lia|done|].
      by apply classified_upto_add_invalid.
    + apply IH; auto.
      * intros; apply Hcheck; by right.
      * intros; apply Hlt; by right.
      * eapply (classified_upto_trans (p - 1) d); [lia|lia|done|done].
    + split; [|done].
      eapply (classified_upto_trans (p - 1) d); [lia|lia|done|done].
  - split; [|done].
    eapply (classified_upto_trans (p - 1) p); [lia|lia|done|apply classified_upto_refl].
Qed.

(** What one call of [is_valid_opcode] does, whatever the budget and
    whether it returns or raises. *)
Lemma is_valid_opcode_spec (depth : nat) (p : Z) (s : CodeStream) :
  let r := is_valid_opcode depth p s in
  classified_upto p s r.2 ∧
  (r.1 = Return true →
     p < _length_cache s ∧ p ∈ valid_positions r.2 ∧ p ∉ invalid_positions r.2) ∧
  (r.1 = Return false → _length_cache s ≤ p ∨ p ∈ invalid_positions r.2).
Proof.
  revert p s. induction depth as [|depth IH]; intros p s; simpl.
  - split; [apply classified_upto_refl|done].
  - destruct (Z.geb_spec p (_length_cache s)); simpl.
    { split; [apply classified_upto_refl|]. split; [done|]. intros _; left; lia. }
    destruct (decide (p ∈ invalid_positions s)); simpl.
    { split; [apply classified_upto_refl|]. split; [done|]. by right. }
    destruct (decide (p ∈ valid_positions s)); simpl.
    { split; [apply classified_upto_refl|]. done. }
    assert (∀ d s', d ∈ yields (_potentially_disqualifying_opcode_positions s p) →
              classified_upto d s' (is_valid_opcode depth d s').2) as Hcheck
      by (intros d s' _; apply IH).
    assert (∀ d, d ∈ yields (_potentially_disqualifying_opcode_positions s p) → d < p)
      as Hlt by (intros d Hd%potentially_disqualifying_window; lia).
    destruct (for_disqualifier_spec _ p _ Hcheck Hlt s s) as (Hc & Ht & Hf);
      [done|done|apply classified_upto_refl|].
    split; [done|]. split; [intros Hr; split; [lia|auto]|auto].
Qed.

(** *** The memo-free classification and the soundness of the memo *)

Lemma forallb_ext_elem {A} (f g : A → bool) (l : list A) :
  (∀ x, x ∈ l → f x = g x) → forallb f l = forallb g l.
Proof.
  induction l as [|x l IH]; intros Hfg; simpl; [done|].
  rewrite (Hfg x) by left. f_equal. apply IH. intros; apply Hfg; by right.
Qed.

(** Any fuel above the position gives the same answer. *)
Lemma is_real_opcode_fuel (fuel1 fuel2 : nat) (raw : list Z) (p : Z) :
  (Z.to_nat p < fuel1)%nat → (Z.to_nat p < fuel2)%nat →
  is_real_opcode fuel1 raw p = is_real_opcode fuel2 raw p.
Proof.
  revert fuel2 p. induction fuel1 as [|fuel1 IH]; intros fuel2 p H1 H2; [lia|].
  destruct fuel2 as [|fuel2]; [lia|]. simpl.
  apply forallb_ext_elem. intros d Hd%lookback_window.
  f_equal. apply IH; lia.
Qed.

Lemma real_opcode_unfold (raw : list Z) (p : Z) :
  real_opcode raw p
  = forallb (λ d, negb (real_opcode raw d))
      (yields (disqualifying_from raw p (range_down (Z.min 32 p)))).
Proof.
  unfold real_opcode at 1. simpl.
  apply forallb_ext_elem. intros d Hd%lookback_window.
  f_equal. apply is_real_opcode_fuel; lia.
Qed.

Lemma memo_sound_add_valid (p : Z) (s : CodeStream) :
  memo_sound s → real_opcode (_raw_code_bytes s) p = true →
  memo_sound (valid_positions_add p s).2.
Proof.
  intros Hs Hp q. destruct (Hs q) as [Hv Hi]. simpl. split; [|done].
  intros [->%elem_of_singleton|?]%elem_of_union; auto.
Qed.

Lemma memo_sound_add_invalid (p : Z) (s : CodeStream) :
  memo_sound s → real_opcode (_raw_code_bytes s) p = false →
  memo_sound (invalid_positions_add p s).2.
Proof.
  intros Hs Hp q. destruct (Hs q) as [Hv Hi]. simpl. split; [done|].
  intros [->%elem_of_singleton|?]%elem_of_union; auto.
Qed.

(** The loop, when the recursive calls answer as the memo-free
    classification does. *)
Lemma for_disqualifier_sound (s0 : CodeStream) (check : Z → action bool)
    (p : Z) (g : generator Z) :
  (∀ d s', d ∈ yields g → evolves s0 s' → memo_sound s' →
     let r := check d s' in
     evolves s0 r.2 ∧ memo_sound r.2 ∧
     ∀ b, r.1 = Return b → b = real_opcode (_raw_code_bytes s0) d) →
  ∀ s, evolves s0 s → memo_sound s →
    real_opcode (_raw_code_bytes s0) p
    = forallb (λ d, negb (real_opcode (_raw_code_bytes s0) d)) (yields g) →
    let r := for_disqualifier check p g s in
    memo_sound r.2 ∧ ∀ b, r.1 = Return b → b = real_opcode (_raw_code_bytes s0) p.
Proof.
  induction g as [|d rest IH|e]; intros Hcheck s Hev Hs Hp; simpl in *.
  - split; [|by intros b [= <-]].
    apply memo_sound_add_valid; [done|]. by rewrite (ev_raw _ _ Hev).
  - unfold action_bind.
    destruct (Hcheck d s) as (Hev1 & Hs1 & Hd); [left|done|done|].
    destruct (check d s) as [[live|e] s1]; simpl in *; [|done].
    rewrite <- (Hd live eq_refl) in Hp. destruct live; simpl in *.
    + split; [|by intros b [= <-]].
      apply memo_sound_add_invalid; [done|]. by rewrite (ev_raw _ _ Hev1).
    + apply IH; auto. intros; apply Hcheck; auto. by right.
  - done.
Qed.

(** Every call keeps the memo sound, and what it returns on a sound memo
    is the memo-free classification (and [False] beyond the length). *)
Lemma is_valid_opcode_sound (depth : nat) (p : Z) (s : CodeStream) :
  memo_sound s →
  let r := is_valid_opcode depth p s in
  memo_sound r.2 ∧
  ∀ b, r.1 = Return b →
       b = (p <? _length_cache s) && real_opcode (_raw_code_bytes s) p.
Proof.
  revert p s. induction depth as [|depth IH]; intros p s Hs; simpl; [done|].
  destruct (Z.geb_spec p (_length_cache s)); simpl.
  { split; [done|]. intros b [= <-]. by destruct (Z.ltb_spec p (_length_cache s)); [lia|]. }
  destruct (Z.ltb_spec p (_length_cache s)); [|lia]. simpl.
  destruct (decide (p ∈ invalid_positions s)) as [Hi|_]; simpl.
  { split; [done|]. intros b [= <-]. symmetry. by apply Hs. }
  destruct (decide (p ∈ valid_positions s)) as [Hv|_]; simpl.
  { split; [done|]. intros b [= <-]. symmetry. by apply Hs. }
  apply (for_disqualifier_sound s); [|apply evolves_refl|done|apply real_opcode_unfold].
  intros d s' Hd%potentially_disqualifying_window Hev Hs'.
  destruct (IH d s' Hs') as [Hsound Hb].
  destruct (is_valid_opcode_spec depth d s') as ([Hev' _ _ _] & _).
  split; [eauto using evolves_trans|]. split; [done|].
  intros b Hr. rewrite (Hb b Hr), (ev_len _ _ Hev), (ev_raw _ _ Hev).
  by destruct (Z.ltb_spec d (_length_cache s)); [|lia].
Qed.

Lemma preserves_is_valid_opcode (depth : nat) (p : Z) :
  preserves (is_valid_opcode depth p).
Proof.
  intros s. destruct (is_valid_opcode_spec depth p s) as (Hc & _).
  split; [apply Hc|]. split; [eauto using wf_classified_upto|].
  intros Hs. by apply is_valid_opcode_sound.
Qed.

End Classifier.

(** ** Termination and the depth of the recursion *)

Section Depth.
Context `{opcode_values}.

Lemma for_disqualifier_returns (check : Z → action bool) (p : Z)
    (g : generator Z) (s : CodeStream) :
  exhausts g →
  (∀ d s', d ∈ yields g → wf s' → returns (check d) s' ∧ wf (check d s').2) →
  wf s →
  returns (for_disqualifier check p g) s.
Proof.
  revert s. induction g as [|d rest IH|e]; intros s Hg Hcheck Hs; simpl in *.
  - by eexists _, _.
  - destruct (Hcheck d s) as ((live & s1 & Hd) & Hs1); [left|done|].
    unfold returns, action_bind. rewrite Hd in *. simpl in *.
    destruct live; [by eexists _, _|].
    apply IH; auto. intros; apply Hcheck; auto. by right.
  - done.
Qed.

(** A classification of [p] returns when the stack admits [p + 1] nested
    activations (one, when [p] is negative). *)
Lemma is_valid_opcode_returns (depth : nat) (p : Z) (s : CodeStream) :
  wf s → (Z.to_nat p < depth)%nat → returns (is_valid_opcode depth p) s.
Proof.
  revert p s. induction depth as [|depth IH]; intros p s Hs Hp; [lia|].
  unfold returns. simpl.
  destruct (Z.geb_spec p (_length_cache s)); [by eexists _, _|].
  destruct (decide (p ∈ invalid_positions s)); [by eexists _, _|].
  destruct (decide (p ∈ valid_positions s)); [by eexists _, _|].
  apply for_disqualifier_returns; [| |done].
  - apply potentially_disqualifying_exhausts. rewrite <- (wf_length _ Hs). lia.
  - intros d s' Hd%potentially_disqualifying_window Hs'. split.
    + apply IH; [done|lia].
    + by apply (preserves_is_valid_opcode depth d s').
Qed.

Lemma for_disqualifier_mono (check1 check2 : Z → action bool) (p : Z)
    (g : generator Z) (s : CodeStream) (b : bool) (s' : CodeStream) :
  (∀ d s1 b1 s1', check1 d s1 = (Return b1, s1') → check2 d s1 = (Return b1, s1')) →
  for_disqualifier check1 p g s = (Return b, s') →
  for_disqualifier check2 p g s = (Return b, s').
Proof.
  intros Hcheck. revert s. induction g as [|d rest IH|e]; intros s; simpl; [done| |done].
  unfold action_bind.
  destruct (check1 d s) as [[live|e] s1] eqn:Hd; [|done].
  rewrite (Hcheck _ _ _ _ Hd). destruct live; [done|apply IH].
Qed.

(** A larger budget does not change what a call returns. *)
Lemma is_valid_opcode_depth_mono (depth depth' : nat) (p : Z)
    (s : CodeStream) (b : bool) (s' : CodeStream) :
  (depth ≤ depth')%nat →
  is_valid_opcode depth p s = (Return b, s') →
  is_valid_opcode depth' p s = (Return b, s').
Proof.
  revert depth' p s b s'.
  induction depth as [|depth IH]; intros depth' p s b s' Hle; [done|].
  destruct depth' as [|depth']; [lia|]. simpl.
  destruct (p >=? _length_cache s); [done|].
  destruct (decide (p ∈ invalid_positions s)); [done|].
  destruct (decide (p ∈ valid_positions s)); [done|].
  apply for_disqualifier_mono. intros d s1 b1 s1'. apply IH. lia.
Qed.

End Depth.

(** ** Every caller keeps the invariants *)

Lemma op_ind (P : op → Prop) :
  (∀ o,
     match o with
     | OpSeek _ body | OpTry body => Forall P body
     | _ => True
     end → P o) →
  ∀ o, P o.
Proof.
  intros Hstep. fix IH 1. intros o. apply Hstep. destruct o; try exact I.
  - induction body as [|o body IHbody]; constructor; [apply IH|apply IHbody].
  - induction body as [|o body IHbody]; constructor; [apply IH|apply IHbody].
Qed.

Section CallerInvariants.
Context `{opcode_values}.

Lemma preserves_run_block (run : op → action unit) (body : list op) :
  Forall (λ o, preserves (run o)) body → preserves (run_block run body).
Proof.
  induction 1; simpl; [apply preserves_ret|].
  apply preserves_bind; auto.
Qed.

Lemma preserves_run_op (o : op) : preserves (run_op o).
Proof.
  induction o as [o IH] using op_ind. destruct o; simpl.
  - apply preserves_void, preserves_read.
  - apply preserves_void, preserves_pure.
  - apply preserves_void, preserves_next.
  - apply preserves_void, preserves_getitem.
  - apply preserves_void, preserves_peek.
  - apply preserves_void, preserves_pc_get.
  - apply preserves_pc_set.
  - apply preserves_void, preserves_is_valid_opcode.
  - apply preserves_seek, preserves_run_block, IH.
  - apply preserves_try_except_pass, preserves_run_block, IH.
  - apply preserves_raise.
Qed.

Lemma run_ops_app (ops1 ops2 : list op) (s : CodeStream) :
  run_ops (ops1 ++ ops2) s = run_ops ops2 (run_ops ops1 s).
Proof. apply foldl_app. Qed.

Lemma run_ops_preserves (ops : list op) (s : CodeStream) :
  evolves s (run_ops ops s) ∧
  (wf s → wf (run_ops ops s)) ∧
  (memo_sound s → memo_sound (run_ops ops s)).
Proof.
  revert s. induction ops as [|o ops IH]; intros s; simpl.
  - auto using evolves_refl.
  - destruct (preserves_run_op o s) as (E1 & W1 & M1).
    destruct (IH (run_op o s).2) as (E2 & W2 & M2).
    split; [eauto using evolves_trans|auto].
Qed.

Lemma wf_init (code_bytes : list Z) : wf (__init__ code_bytes).
Proof. split; simpl; auto. unfold pc, len. simpl. lia. Qed.

Lemma wf_reachable (code_bytes : list Z) (ops : list op) :
  wf (run_ops ops (__init__ code_bytes)).
Proof. apply run_ops_preserves, wf_init. Qed.

Lemma raw_reachable (code_bytes : list Z) (ops : list op) :
  _raw_code_bytes (run_ops ops (__init__ code_bytes)) = code_bytes.
Proof.
  destruct (run_ops_preserves ops (__init__ code_bytes)) as (E & _).
  apply (ev_raw _ _ E).
Qed.

Lemma memo_sound_reachable (code_bytes : list Z) (ops : list op) :
  memo_sound (run_ops ops (__init__ code_bytes)).
Proof. apply run_ops_preserves. intros q. simpl. set_solver. Qed.

(** On every object a caller can have, what [is_valid_opcode] returns is
    the memo-free classification of the position in the code, and [False]
    beyond the length. *)
Lemma is_valid_opcode_agrees (code_bytes : list Z) (ops : list op)
    (depth : nat) (p : Z) (b : bool) (s' : CodeStream) :
  is_valid_opcode depth p (run_ops ops (__init__ code_bytes)) = (Return b, s') →
  b = (p <? len code_bytes) && real_opcode code_bytes p.
Proof.
  intros Hcall.
  destruct (is_valid_opcode_sound depth p _ (memo_sound_reachable code_bytes ops))
    as [_ Hb].
  rewrite (Hb b) by (by rewrite Hcall).
  rewrite raw_reachable, (wf_length _ (wf_reachable code_bytes ops)), raw_reachable.
  done.
Qed.

End CallerInvariants.

(** ** Classifying a position: out of range, unshadowed, shadowed *)

Section Classifying.
Context `{opcode_values}.

(** C4. For every object and every position [p >= length],
    [is_valid_opcode(p)] returns [False]; it raises nothing and leaves
    the object, and so both memo sets, as they were. *)
Theorem is_valid_opcode_beyond_length (depth : nat) (p : Z) (self : CodeStream) :
  __len__ self ≤ p →
  is_valid_opcode (S depth) p self = (Return false, self).
Proof.
  unfold __len__. intros Hp. simpl.
  by destruct (Z.geb_spec p (_length_cache self)); [|lia].
Qed.

(** A position in range and not memoised, for which the generator yields
    nothing, is memoised as valid. *)
Lemma is_valid_opcode_unshadowed (depth : nat) (p : Z) (self : CodeStream) :
  p < _length_cache self →
  p ∉ invalid_positions self → p ∉ valid_positions self →
  _potentially_disqualifying_opcode_positions self p = StopIteration →
  is_valid_opcode (S depth) p self = (Return true, (valid_positions_add p self).2).
Proof.
  intros Hp Hi Hv Hg. simpl.
  destruct (Z.geb_spec p (_length_cache self)); [lia|].
  destruct (decide (p ∈ invalid_positions self)); [done|].
  destruct (decide (p ∈ valid_positions self)); [done|].
  by rewrite Hg.
Qed.

(** A position whose first candidate is a live push is memoised as
    invalid, after whatever the classification of the candidate
    memoised. *)
Lemma is_valid_opcode_shadowed (depth : nat) (p : Z) (self : CodeStream)
    (d : Z) (rest : generator Z) (self1 : CodeStream) :
  p < _length_cache self →
  p ∉ invalid_positions self → p ∉ valid_positions self →
  _potentially_disqualifying_opcode_positions self p = Yield d rest →
  is_valid_opcode depth d self = (Return true, self1) →
  is_valid_opcode (S depth) p self = (Return false, (invalid_positions_add p self1).2).
Proof.
  intros Hp Hi Hv Hg Hd. simpl.
  destruct (Z.geb_spec p (_length_cache self)); [lia|].
  destruct (decide (p ∈ invalid_positions self)); [done|].
  destruct (decide (p ∈ valid_positions self)); [done|].
  rewrite Hg. simpl. unfold action_bind. by rewrite Hd.
Qed.

(** A position that is memoised is answered from the memo. *)
Lemma is_valid_opcode_memoised_valid (depth : nat) (p : Z) (self : CodeStream) :
  p < _length_cache self →
  p ∉ invalid_positions self → p ∈ valid_positions self →
  is_valid_opcode (S depth) p self = (Return true, self).
Proof.
  intros Hp Hi Hv. simpl.
  destruct (Z.geb_spec p (_length_cache self)); [lia|].
  destruct (decide (p ∈ invalid_positions self)); [done|].
  by destruct (decide (p ∈ valid_positions self)).
Qed.

Lemma is_valid_opcode_memoised_invalid (depth : nat) (p : Z) (self : CodeStream) :
  p ∈ invalid_positions self →
  is_valid_opcode (S depth) p self = (Return false, self).
Proof.
  intros Hi. simpl.
  destruct (p >=? _length_cache self); [done|].
  by destruct (decide (p ∈ invalid_positions self)).
Qed.

(** C2. For every code, after any sequence of operations, every negative
    position [p] that is in neither memo set is classified as valid:
    [is_valid_opcode(p)] returns [True] and adds [p] to
    [valid_positions], the code being empty or not.  The guard
    [position >= length] lets it through and the lookback window of a
    negative position is empty. *)
Theorem is_valid_opcode_negative (code_bytes : list Z) (ops : list op)
    (depth : nat) (p : Z) :
  let self := run_ops ops (__init__ code_bytes) in
  p < 0 →
  p ∉ invalid_positions self → p ∉ valid_positions self →
  is_valid_opcode (S depth) p self = (Return true, (valid_positions_add p self).2) ∧
  p ∈ valid_positions (is_valid_opcode (S depth) p self).2.
Proof.
  intros self Hp Hi Hv.
  assert (is_valid_opcode (S depth) p self
          = (Return true, (valid_positions_add p self).2)) as ->.
  { apply is_valid_opcode_unshadowed; auto.
    - pose proof (wf_reachable code_bytes ops) as [_ _ [? ?]].
      subst self. unfold pc in *. lia.
    - unfold _potentially_disqualifying_opcode_positions, range_down.
      by replace (Z.to_nat (Z.min 32 p)) with 0%nat by lia. }
  split; [done|]. simpl. set_solver.
Qed.

(** C5. After any sequence of operations on a new [CodeStream] (reads,
    moves of the cursor, seek guards, classifications, in any order and
    whether they return or raise), [valid_positions] and
    [invalid_positions] are disjoint. *)
Theorem memo_sets_disjoint (code_bytes : list Z) (ops : list op) :
  let self := run_ops ops (__init__ code_bytes) in
  valid_positions self ## invalid_positions self.
Proof.
  intros self.
  destruct (run_ops_preserves ops (__init__ code_bytes)) as (E & _).
  apply (ev_disjoint _ _ E). simpl. set_solver.
Qed.

(** C6. Once [is_valid_opcode(p)] has returned a boolean, on any object
    whatever, every later call with the same [p] returns the same boolean,
    after any operations in between (cursor operations and
    classifications of other positions included): the memo has lost no
    entry in between, and the later call is answered without recursion
    and changes nothing. *)
Theorem is_valid_opcode_memo_stable (depth : nat) (p : Z) (self : CodeStream)
    (b : bool) (self1 : CodeStream) (ops : list op) (depth' : nat) :
  is_valid_opcode depth p self = (Return b, self1) →
  let self2 := run_ops ops self1 in
  is_valid_opcode (S depth') p self2 = (Return b, self2) ∧
  valid_positions self1 ⊆ valid_positions self2 ∧
  invalid_positions self1 ⊆ invalid_positions self2.
Proof.
  intros Hcall self2.
  destruct (is_valid_opcode_spec depth p self) as ([E _ _ _] & Ht & Hf).
  rewrite Hcall in *. simpl in *.
  destruct (run_ops_preserves ops self1) as (E2 & _). fold self2 in E2.
  pose proof (ev_len _ _ E). pose proof (ev_len _ _ E2).
  split; [|split; [apply (ev_valid _ _ E2)|apply (ev_invalid _ _ E2)]].
  destruct b.
  - destruct Ht as (Hp & Hv & Hi); [done|].
    apply is_valid_opcode_memoised_valid.
    + lia.
    + by apply (ev_keeps_valid _ _ E2).
    + by apply (ev_valid _ _ E2).
  - destruct Hf as [Hp|Hi]; [done| |].
    + apply is_valid_opcode_beyond_length. unfold __len__. lia.
    + apply is_valid_opcode_memoised_invalid. by apply (ev_invalid _ _ E2).
Qed.

End Classifying.

(** ** The cursor: end of code, [peek], the [pc] setter, the [seek] guard *)

Section Cursor.
Context `{opcode_values}.

Lemma set_stream_same (s : CodeStream) : set_stream (stream s) s = s.
Proof. by destruct s. Qed.

(** At the end of the code [next()] gives [STOP] and changes nothing. *)
Lemma next_at_end_wf (s : CodeStream) :
  wf s → pc s = __len__ s → __next__ s = (Return STOP, s).
Proof.
  intros [W1 W2 W3] Hend.
  unfold __next__, _next, action_bind, read.
  rewrite BytesIO_read_fits by (unfold ssize_t_min, ssize_t_max; lia).
  unfold pc, BytesIO_.tell, __len__ in *. cbv zeta.
  destruct (Z.leb_spec (len (_buffer (stream s))) (_pos (stream s)));
    [|rewrite W1 in *; lia].
  simpl. by rewrite set_stream_same.
Qed.

(** [next()] never raises: it returns an opcode and moves the stream
    only. *)
Lemma next_returns_wf (s : CodeStream) :
  wf s →
  ∃ v io, __next__ s = (Return v, set_stream io s) ∧ _buffer io = _buffer (stream s).
Proof.
  intros [W1 W2 W3].
  unfold __next__, _next, action_bind, read.
  rewrite BytesIO_read_fits by (unfold ssize_t_min, ssize_t_max; lia).
  unfold pc, BytesIO_.tell in *. cbv zeta.
  destruct (Z.leb_spec (len (_buffer (stream s))) (_pos (stream s))); simpl.
  { by exists STOP, (stream s). }
  match goal with
  | |- context [bytes_slice ?b ?lo ?hi] =>
      assert (length (bytes_slice b lo hi) ≤ 1)%nat as Hlen;
      [|destruct (bytes_slice b lo hi) as [|x [|y l]]]
  end.
  - unfold bytes_slice, slice_index. rewrite length_take.
    destruct (Z.ltb_spec (_pos (stream s)) 0); [lia|].
    destruct (Z.ltb_spec (Z.min (len (_buffer (stream s))) (_pos (stream s) + 1)) 0);
      lia.
  - by eexists STOP, _.
  - by eexists x, _.
  - simpl in Hlen. lia.
Qed.

Lemma peek_wf (s : CodeStream) (v : Z) (s' : CodeStream) :
  wf s → __next__ s = (Return v, s') → peek s = (Return v, s).
Proof.
  intros Hs Hnext. destruct (next_returns_wf s Hs) as (v' & io & Hnext' & Hio).
  rewrite Hnext in Hnext'. injection Hnext' as -> ->.
  destruct Hs as [W1 W2 W3].
  unfold peek, action_bind, pc_get. rewrite Hnext. simpl.
  unfold __len__, pc, BytesIO_.tell in *.
  rewrite pc_set_nonneg by (unfold __len__; simpl; lia).
  simpl. unfold set_stream, __len__. simpl. rewrite Hio.
  replace (Z.min (_pos (stream s)) (_length_cache s)) with (_pos (stream s)) by lia.
  by destruct s as [[buffer pos] ? ? ? ?].
Qed.

(** The [finally] clause of the guard: whatever the body did, the cursor
    ends at the anchor. *)
Lemma try_finally_pc_set {A} (body : action A) (anchor_pc : Z) (s : CodeStream) :
  0 ≤ anchor_pc ≤ __len__ s →
  __len__ (body s).2 = __len__ s →
  pc (try_finally body (pc_set anchor_pc) s).2 = anchor_pc.
Proof.
  intros Hanchor Hlen. unfold try_finally.
  destruct (body s) as [r s2]. simpl in Hlen.
  rewrite pc_set_nonneg by lia. rewrite Hlen.
  unfold pc, BytesIO_.tell. simpl. lia.
Qed.

(** Entering the guard: either the setter raises and nothing has moved, or
    the body runs under the [finally] clause. *)
Ltac enter_guard target self :=
  unfold seek, action_bind, pc_get;
  destruct (Z.lt_ge_cases (Z.min target (__len__ self)) 0);
    [by rewrite pc_set_negative|rewrite pc_set_nonneg by lia].

(** C7. For every target and every body run inside the guard
    [with self.seek(target):], whatever the body does to the object short
    of replacing the cached length of the code (it may raise, move the cursor
    anywhere, enter further guards), the cursor on exit from the guard is
    the cursor captured at entry.  The cursor at entry lies in
    [0, length], as it does on every object the methods produce. *)
Theorem seek_restores_pc {A} (target : Z) (body : action A) (self : CodeStream) :
  0 ≤ pc self ≤ __len__ self →
  (∀ s, __len__ (body s).2 = __len__ s) →
  pc (seek target body self).2 = pc self.
Proof.
  intros Hpc Hbody. enter_guard target self.
  apply try_finally_pc_set; [done|]. apply Hbody.
Qed.

Lemma run_block_keeps_len (body : list op) (s : CodeStream) :
  __len__ (run_block run_op body s).2 = __len__ s.
Proof.
  destruct (preserves_run_block run_op body) with (s := s) as (E & _);
    [|apply (ev_len _ _ E)].
  apply Forall_forall. intros o _. apply preserves_run_op.
Qed.

(** The same for a block of statements of a caller, on every object a
    caller can have. *)
Lemma run_op_seek_restores_pc (code_bytes : list Z) (ops : list op)
    (target : Z) (body : list op) :
  let self := run_ops ops (__init__ code_bytes) in
  pc (run_op (OpSeek target body) self).2 = pc self.
Proof.
  intros self. simpl. enter_guard target self.
  apply try_finally_pc_set; [|apply run_block_keeps_len].
  apply (wf_pos _ (wf_reachable code_bytes ops)).
Qed.

(** C8. When the cursor is at the length of the code, [next()] returns
    [STOP] and does not signal the end of the iteration; any number of
    calls in a row return [STOP] each, and the cursor stays at the
    length. *)
Theorem next_at_end_returns_STOP (code_bytes : list Z) (ops : list op) (n : nat) :
  let self := run_ops ops (__init__ code_bytes) in
  pc self = __len__ self →
  next_times n self = (Return (repeat STOP n), self) ∧
  pc (next_times n self).2 = __len__ self.
Proof.
  intros self Hend.
  assert (next_times n self = (Return (repeat STOP n), self)) as ->; [|done].
  induction n as [|n IH]; simpl; [done|].
  unfold action_bind.
  rewrite (next_at_end_wf self (wf_reachable code_bytes ops) Hend).
  by rewrite IH.
Qed.

(** C9. On every object a caller can have, [peek()] returns the value
    [next()] would return and leaves the object, and so the cursor, as it
    was; any number of calls of [peek()] in a row return that same value
    and leave the object as it was. *)
Theorem peek_returns_next_and_keeps_cursor (code_bytes : list Z) (ops : list op) :
  let self := run_ops ops (__init__ code_bytes) in
  ∃ v,
    (__next__ self).1 = Return v ∧
    peek self = (Return v, self) ∧
    pc (peek self).2 = pc self ∧
    ∀ n, peek_times n self = (Return (repeat v n), self).
Proof.
  intros self. pose proof (wf_reachable code_bytes ops) as Hwf. fold self in Hwf.
  destruct (next_returns_wf self Hwf) as (v & io & Hnext & _).
  pose proof (peek_wf self v _ Hwf Hnext) as Hpeek.
  exists v. rewrite Hnext, Hpeek. do 3 (split; [done|]).
  induction n as [|n IH]; simpl; [done|].
  unfold action_bind. by rewrite Hpeek, IH.
Qed.

(** C10 (as amended). On every object a caller can have the cursor lies
    in [0, length], after any reads and any settings of [pc], those that
    raise included; and setting [pc] to a target [t >= 0] raises nothing
    and puts the cursor at [min(t, length)], changing nothing else. *)
Theorem pc_setter_clamps_nonnegative (code_bytes : list Z) (ops : list op) (t : Z) :
  let self := run_ops ops (__init__ code_bytes) in
  0 ≤ pc self ≤ __len__ self ∧
  (0 ≤ t →
   pc_set t self
   = (Return tt,
      set_stream {| _buffer := _buffer (stream self);
                    _pos := Z.min t (__len__ self) |} self)).
Proof.
  intros self. pose proof (wf_reachable code_bytes ops) as [_ _ Hpos].
  fold self in Hpos. split; [done|].
  intros Ht. apply pc_set_nonneg. unfold __len__. lia.
Qed.

End Cursor.

(** ** The depth of the recursion and the scenarios *)

Section Scenarios.
Context `{opcode_values}.

(** One turn of the generator's loop, by whether the earlier byte is a
    push wide enough to reach the position. *)
Lemma disqualifying_from_skip (raw : list Z) (p b : Z) (bs : list Z) (opcode : Z) :
  bytes_getitem raw (p - b) = Return opcode →
  ¬ (PUSH1 + (b - 1) ≤ opcode ≤ PUSH32) →
  disqualifying_from raw p (b :: bs) = disqualifying_from raw p bs.
Proof.
  intros Hget Hguard. simpl. rewrite Hget.
  destruct (Z.leb_spec (PUSH1 + (b - 1)) opcode);
    destruct (Z.leb_spec opcode PUSH32); simpl; auto; lia.
Qed.

Lemma disqualifying_from_yield (raw : list Z) (p b : Z) (bs : list Z) (opcode : Z) :
  bytes_getitem raw (p - b) = Return opcode →
  PUSH1 + (b - 1) ≤ opcode ≤ PUSH32 →
  disqualifying_from raw p (b :: bs) = Yield (p - b) (disqualifying_from raw p bs).
Proof.
  intros Hget Hguard. simpl. rewrite Hget.
  destruct (Z.leb_spec (PUSH1 + (b - 1)) opcode);
    destruct (Z.leb_spec opcode PUSH32); simpl; auto; lia.
Qed.

(** C3 (as amended). On every object a caller can have, a classification
    of position [p] returns whenever the stack admits [p + 1] nested
    activations of [is_valid_opcode], and one activation when [p] is
    negative or at or beyond the length: every recursive call is on an
    earlier position, so the chain is at most [p + 1] deep.  (It is not
    bounded by the 32 bytes of the lookback window.) *)
Theorem is_valid_opcode_depth_at_most_position (code_bytes : list Z)
    (ops : list op) (depth : nat) (p : Z) :
  let self := run_ops ops (__init__ code_bytes) in
  (0 < depth)%nat →
  (0 ≤ p < __len__ self → (Z.to_nat p < depth)%nat) →
  returns (is_valid_opcode depth p) self.
Proof.
  intros self Hdepth Hp.
  pose proof (wf_reachable code_bytes ops) as Hwf. fold self in Hwf.
  destruct (Z.le_gt_cases (__len__ self) p) as [Hlen|Hlen].
  { destruct depth as [|depth]; [lia|].
    eexists _, _. by apply is_valid_opcode_beyond_length. }
  apply is_valid_opcode_returns; [done|].
  destruct (Z.le_gt_cases 0 p); [apply Hp|]; lia.
Qed.

(** The bound is reached: on a new object over a run of [PUSH1] bytes the
    classification of position [n] raises [RecursionError] when the
    stack admits [n] nested activations only. *)
Lemma push1_run_generator (m : nat) (self : CodeStream) (k : Z) :
  PUSH1 ≤ PUSH32 →
  _raw_code_bytes self = replicate m PUSH1 →
  1 ≤ k < Z.of_nat m →
  _potentially_disqualifying_opcode_positions self k = Yield (k - 1) StopIteration.
Proof.
  intros Hpush Hraw Hk. unfold _potentially_disqualifying_opcode_positions.
  rewrite Hraw.
  assert (∀ i, 0 ≤ i < Z.of_nat m → bytes_getitem (replicate m PUSH1) i = Return PUSH1)
    as Hget.
  { intros i Hi. unfold bytes_getitem, len. rewrite length_replicate.
    destruct (Z.ltb_spec i 0); [lia|].
    destruct (Z.leb_spec 0 i); [|lia].
    destruct (Z.ltb_spec i (Z.of_nat m)); [|lia]. simpl.
    rewrite lookup_replicate_2; [done|lia]. }
  assert (∀ bs, (∀ b, b ∈ bs → 2 ≤ b ≤ k) →
            disqualifying_from (replicate m PUSH1) k (bs ++ [1])
            = Yield (k - 1) StopIteration) as Hloop.
  { induction bs as [|b bs IH]; intros Hbs; simpl app.
    - rewrite (disqualifying_from_yield _ _ _ _ PUSH1); [done|apply Hget; lia|lia].
    - assert (2 ≤ b ≤ k) by (apply Hbs; left).
      rewrite (disqualifying_from_skip _ _ _ _ PUSH1); [|apply Hget; lia|lia].
      apply IH. intros; apply Hbs; by right. }
  unfold range_down.
  replace (Z.to_nat (Z.min 32 k)) with (S (Z.to_nat (Z.min 32 k - 1))) by lia.
  rewrite seq_S, fmap_app. simpl.
  replace (Z.min 32 k - Z.of_nat (Z.to_nat (Z.min 32 k - 1))) with 1 by lia.
  apply Hloop. intros b (i & -> & Hi%elem_of_seq)%list_elem_of_fmap. lia.
Qed.

(** X14. The depth of the recursion grows with the position: with
    [PUSH1 <= PUSH32], on a new object over [m] bytes [PUSH1], classifying
    position [n] raises [RecursionError] when the stack admits [n] nested
    activations or fewer ([n + 1] are needed), and the failed call leaves
    the object as it was, nothing memoised. *)
Lemma push1_run_needs_depth (m n depth : nat) :
  PUSH1 ≤ PUSH32 →
  (depth ≤ n < m)%nat →
  is_valid_opcode depth (Z.of_nat n) (__init__ (replicate m PUSH1))
  = (Raise RecursionError, __init__ (replicate m PUSH1)).
Proof.
  intros Hpush. revert n. induction depth as [|depth IH]; intros n Hn; [done|].
  simpl. unfold len. rewrite length_replicate.
  destruct (Z.geb_spec (Z.of_nat n) (Z.of_nat m)); [lia|].
  destruct (decide (Z.of_nat n ∈ (∅ : gset Z))); [set_solver|].
  rewrite (push1_run_generator m); [|done|done|lia].
  simpl. unfold action_bind.
  replace (Z.of_nat n - 1) with (Z.of_nat (n - 1)) by lia.
  rewrite IH; [done|lia].
Qed.

(** On a sound memo a position with no candidate is answered valid and a
    position whose first candidate is live is answered invalid, memoised
    or not. *)
Lemma is_valid_opcode_no_candidate (depth : nat) (p : Z) (s : CodeStream) :
  memo_sound s → p < _length_cache s →
  _potentially_disqualifying_opcode_positions s p = StopIteration →
  (is_valid_opcode (S depth) p s).1 = Return true.
Proof.
  intros Hs Hp Hg.
  assert (real_opcode (_raw_code_bytes s) p = true) as Hreal.
  { rewrite real_opcode_unfold.
    by change (disqualifying_from _ _ _)
      with (_potentially_disqualifying_opcode_positions s p); rewrite Hg. }
  destruct (decide (p ∈ invalid_positions s)) as [Hi|Hi].
  { apply Hs in Hi. congruence. }
  destruct (decide (p ∈ valid_positions s)) as [Hv|Hv].
  - by rewrite is_valid_opcode_memoised_valid.
  - by rewrite is_valid_opcode_unshadowed.
Qed.

Lemma is_valid_opcode_live_candidate (depth : nat) (p : Z) (s : CodeStream)
    (d : Z) (rest : generator Z) :
  memo_sound s → p < _length_cache s →
  _potentially_disqualifying_opcode_positions s p = Yield d rest →
  (is_valid_opcode depth d s).1 = Return true →
  (is_valid_opcode (S depth) p s).1 = Return false.
Proof.
  intros Hs Hp Hg Hd.
  assert (real_opcode (_raw_code_bytes s) d = true) as Hreal_d.
  { destruct (is_valid_opcode_sound depth d s Hs) as [_ Hb].
    specialize (Hb true Hd). symmetry in Hb. by apply andb_true_iff in Hb as [_ ?]. }
  assert (real_opcode (_raw_code_bytes s) p = false) as Hreal.
  { rewrite real_opcode_unfold.
    change (disqualifying_from _ _ _)
      with (_potentially_disqualifying_opcode_positions s p).
    rewrite Hg. simpl. by rewrite Hreal_d. }
  destruct (decide (p ∈ invalid_positions s)) as [Hi|Hi].
  { by rewrite is_valid_opcode_memoised_invalid. }
  destruct (decide (p ∈ valid_positions s)) as [Hv|Hv].
  { apply Hs in Hv. congruence. }
  destruct (is_valid_opcode depth d s) as [r s1] eqn:Hcall.
  simpl in Hd. subst r.
  by rewrite (is_valid_opcode_shadowed _ p s d rest s1).
Qed.

(** C1. With [0 < PUSH1 < PUSH32] in the opcode table, classifying the
    code [[PUSH2, PUSH1, 0x00, 0x00]] gives: position 0 valid, position 1
    invalid (it is data of the [PUSH2]; its value being that of [PUSH1]
    makes no difference), position 2 invalid, position 3 valid.  This is
    so on a new object and after any operations on it, the other
    classifications in any order among them. *)
Theorem push2_push1_scenario (ops : list op) (depth : nat) :
  0 < PUSH1 → PUSH1 < PUSH32 →
  let self := run_ops ops (__init__ [PUSH2; PUSH1; 0x00; 0x00]) in
  let classify := is_valid_opcode (S (S depth)) in
  (classify 0 self).1 = Return true ∧
  (classify 1 self).1 = Return false ∧
  (classify 2 self).1 = Return false ∧
  (classify 3 self).1 = Return true.
Proof.
  intros Hpos Hlt self classify. unfold PUSH2 in *.
  set (code := [PUSH1 + 1; PUSH1; 0; 0]) in *.
  pose proof (memo_sound_reachable code ops) as Hsound.
  pose proof (raw_reachable code ops) as Hraw.
  pose proof (wf_length _ (wf_reachable code ops)) as Hlen.
  fold self in Hsound, Hraw, Hlen. rewrite Hraw in Hlen.
  change (len code) with 4 in Hlen.
  assert (_potentially_disqualifying_opcode_positions self 0 = StopIteration) as G0
    by (by unfold _potentially_disqualifying_opcode_positions).
  assert (_potentially_disqualifying_opcode_positions self 1 = Yield 0 StopIteration)
    as G1.
  { unfold _potentially_disqualifying_opcode_positions. rewrite Hraw.
    change (range_down (Z.min 32 1)) with [1].
    rewrite (disqualifying_from_yield _ _ _ _ (PUSH1 + 1)); [done|done|lia]. }
  assert (_potentially_disqualifying_opcode_positions self 2
          = Yield 0 (Yield 1 StopIteration)) as G2.
  { unfold _potentially_disqualifying_opcode_positions. rewrite Hraw.
    change (range_down (Z.min 32 2)) with [2; 1].
    rewrite (disqualifying_from_yield _ _ _ _ (PUSH1 + 1)); [|done|lia].
    rewrite (disqualifying_from_yield _ _ _ _ PUSH1); [done|done|lia]. }
  assert (_potentially_disqualifying_opcode_positions self 3 = StopIteration) as G3.
  { unfold _potentially_disqualifying_opcode_positions. rewrite Hraw.
    change (range_down (Z.min 32 3)) with [3; 2; 1].
    rewrite (disqualifying_from_skip _ _ _ _ (PUSH1 + 1)); [|done|lia].
    rewrite (disqualifying_from_skip _ _ _ _ PUSH1); [|done|lia].
    rewrite (disqualifying_from_skip _ _ _ _ 0); [done|done|lia]. }
  assert (∀ d, (is_valid_opcode (S d) 0 self).1 = Return true) as C0
    by (intros d; apply is_valid_opcode_no_candidate; [done|lia|done]).
  split; [apply C0|].
  split; [by eapply (is_valid_opcode_live_candidate _ 1 self 0); [|lia|apply G1|]|].
  split; [by eapply (is_valid_opcode_live_candidate _ 2 self 0); [|lia|apply G2|]|].
  apply is_valid_opcode_no_candidate; [done|lia|done].
Qed.

End Scenarios.

(** ** Reading the code through the cursor *)

Section Reading.
Context `{opcode_values}.

Lemma bytes_getitem_nonneg (b : list Z) (i : Z) :
  0 ≤ i →
  bytes_getitem b i
  = match b !! Z.to_nat i with Some x => Return x | None => Raise IndexError end.
Proof.
  intros Hi. unfold bytes_getitem, len.
  destruct (Z.ltb_spec i 0); [lia|].
  destruct (Z.leb_spec 0 i); [|lia].
  destruct (Z.ltb_spec i (Z.of_nat (length b))); simpl; [done|].
  by rewrite (proj2 (lookup_ge_None b (Z.to_nat i))) by lia.
Qed.

(** What [read] does on an object that satisfies the invariant, for a
    size that fits. *)
Lemma read_wf (size : Z) (s : CodeStream) :
  wf s → ssize_t_min ≤ size ≤ ssize_t_max →
  let n := if size <? 0 then len (_raw_code_bytes s) else size in
  read size s
  = (Return (take (Z.to_nat n) (drop (Z.to_nat (pc s)) (_raw_code_bytes s))),
     set_stream {| _buffer := _raw_code_bytes s;
                   _pos := Z.min (len (_raw_code_bytes s)) (pc s + n) |} s).
Proof.
  intros [W1 W2 W3] Hsize n. unfold read.
  rewrite BytesIO_read_fits by done. cbv zeta. rewrite W1.
  unfold pc, BytesIO_.tell, len in *. fold n.
  assert (0 ≤ n) by (subst n; destruct (Z.ltb_spec size 0); lia).
  set (raw := _raw_code_bytes s) in *. set (pos := _pos (stream s)) in *.
  destruct (Z.leb_spec (Z.of_nat (length raw)) pos) as [Hend|Hin].
  - rewrite drop_ge, take_nil by lia. f_equal.
    replace (Z.min (Z.of_nat (length raw)) (pos + n)) with pos by lia.
    subst raw pos. rewrite <- W1. by destruct s as [[buffer p] ? ? ? ?].
  - f_equal. f_equal. unfold bytes_slice, slice_index, len.
    destruct (Z.ltb_spec pos 0); [lia|].
    destruct (Z.ltb_spec (Z.min (Z.of_nat (length raw)) (pos + n)) 0); [lia|].
    replace (Z.min pos (Z.of_nat (length raw))) with pos by lia.
    destruct (Z.le_gt_cases (pos + n) (Z.of_nat (length raw))).
    + f_equal. lia.
    + rewrite !take_ge; [done|rewrite length_drop; lia..].
Qed.

(** What [next()] does on such an object: the byte under the cursor, or
    [STOP] at the end. *)
Lemma next_wf (s : CodeStream) :
  wf s →
  __next__ s
  = (Return (default STOP (_raw_code_bytes s !! Z.to_nat (pc s))),
     set_stream {| _buffer := _raw_code_bytes s;
                   _pos := Z.min (len (_raw_code_bytes s)) (pc s + 1) |} s).
Proof.
  intros Hs. unfold __next__, _next, action_bind.
  rewrite (read_wf 1 s Hs) by (unfold ssize_t_min, ssize_t_max; lia). simpl.
  destruct (_raw_code_bytes s !! Z.to_nat (pc s)) as [x|] eqn:Hx.
  - by rewrite (drop_S _ _ _ Hx).
  - by rewrite drop_ge by (by apply lookup_ge_None).
Qed.

Lemma next_times_wf (n : nat) (s : CodeStream) :
  wf s →
  let rest := drop (Z.to_nat (pc s)) (_raw_code_bytes s) in
  next_times n s
  = (Return (take n rest ++ repeat STOP (n - length rest)),
     set_stream {| _buffer := _raw_code_bytes s;
                   _pos := Z.min (len (_raw_code_bytes s)) (pc s + Z.of_nat n) |} s).
Proof.
  revert s. induction n as [|n IH]; intros s Hs; simpl.
  - f_equal.
    destruct Hs as [W1 W2 W3]. unfold pc, BytesIO_.tell in *.
    replace (Z.min (len (_raw_code_bytes s)) (_pos (stream s) + Z.of_nat 0))
      with (_pos (stream s)) by lia.
    rewrite <- W1. by destruct s as [[buffer p] ? ? ? ?].
  - unfold action_bind. rewrite (next_wf s Hs).
    match goal with |- context [next_times n ?s1] =>
      assert (wf s1) as Hs1
        by (pose proof (proj1 (proj2 (preserves_next s)) Hs) as Hw;
            by rewrite (next_wf s Hs) in Hw);
      rewrite (IH s1 Hs1)
    end.
    simpl. unfold pc, BytesIO_.tell. simpl.
    destruct Hs as [W1 W2 W3]. unfold pc, BytesIO_.tell, len in *.
    set (raw := _raw_code_bytes s) in *. set (pos := _pos (stream s)) in *.
    unfold action_ret. f_equal; [|unfold set_stream; simpl; do 2 f_equal; lia].
    f_equal.
    destruct (raw !! Z.to_nat pos) as [x|] eqn:Hx.
    + apply lookup_lt_Some in Hx as Hlt.
      rewrite (drop_S _ _ _ Hx). simpl.
      replace (Z.to_nat (Z.min (Z.of_nat (length raw)) (pos + 1)))
        with (S (Z.to_nat pos)) by lia.
      done.
    + apply lookup_ge_None in Hx.
      rewrite !drop_ge by lia. rewrite !take_nil. simpl.
      by rewrite Nat.sub_0_r.
Qed.


(** X2. Two reads in a row, of sizes that are not negative and whose sum
    fits a [Py_ssize_t], return, joined, what one read of the sum of the
    two sizes returns, and leave the object as that one read leaves it. *)
Theorem read_then_read (code_bytes : list Z) (ops : list op) (m n : Z) :
  let self := run_ops ops (__init__ code_bytes) in
  0 ≤ m → 0 ≤ n → m + n ≤ ssize_t_max →
  (a <- read m ;; b <- read n ;; action_ret (a ++ b)) self = read (m + n) self.
Proof.
  intros self Hm Hn Hfits.
  pose proof (wf_reachable code_bytes ops) as Hwf. fold self in Hwf.
  assert (wf (read m self).2) as Hwf1 by (by apply (preserves_read m self)).
  assert (∀ k, 0 ≤ k ≤ m + n → ssize_t_min ≤ k ≤ ssize_t_max) as Hin
    by (unfold ssize_t_min; lia).
  unfold action_bind.
  rewrite (read_wf (m + n) self Hwf) by (apply Hin; lia).
  rewrite (read_wf m self Hwf) in Hwf1 |- * by (apply Hin; lia).
  cbn [snd] in Hwf1. cbv beta iota.
  rewrite (read_wf n _ Hwf1) by (apply Hin; lia).
  cbv beta iota zeta. simpl _raw_code_bytes.
  destruct (Z.ltb_spec m 0); [lia|]. destruct (Z.ltb_spec n 0); [lia|].
  destruct (Z.ltb_spec (m + n) 0); [lia|].
  destruct Hwf as [W1 W2 W3]. unfold pc, BytesIO_.tell, len in *. simpl.
  set (raw := _raw_code_bytes self) in *. set (pos := _pos (stream self)) in *.
  unfold action_ret.
  replace (Z.min (Z.of_nat (length raw)) (Z.min (Z.of_nat (length raw)) (pos + m) + n))
    with (Z.min (Z.of_nat (length raw)) (pos + (m + n))) by lia.
  f_equal. f_equal.
  replace (Z.to_nat (m + n)) with (Z.to_nat m + Z.to_nat n)%nat by lia.
  rewrite <- take_take_drop. f_equal.
  destruct (Z.le_gt_cases (pos + m) (Z.of_nat (length raw))).
  - rewrite drop_drop. do 2 f_equal. lia.
  - rewrite (drop_ge raw) by lia.
    by rewrite (drop_ge (drop _ raw)) by (rewrite length_drop; lia).
Qed.

(** X3. Iterating the object gives the bytes of the code from the cursor
    on and then [STOP] for ever: [n] calls of [next()] return the next
    bytes that are left, padded with [STOP] up to [n] values, and leave
    the cursor [n] further, or at the length. *)
Theorem next_times_yields_code_then_STOP (code_bytes : list Z) (ops : list op)
    (n : nat) :
  let self := run_ops ops (__init__ code_bytes) in
  let rest := drop (Z.to_nat (pc self)) code_bytes in
  next_times n self
  = (Return (take n rest ++ repeat STOP (n - length rest)),
     set_stream {| _buffer := code_bytes;
                   _pos := Z.min (__len__ self) (pc self + Z.of_nat n) |} self).
Proof.
  intros self rest.
  pose proof (wf_reachable code_bytes ops) as Hwf. fold self in Hwf.
  pose proof (raw_reachable code_bytes ops) as Hraw. fold self in Hraw.
  pose proof (next_times_wf n self Hwf) as Hnext. cbv zeta in Hnext.
  unfold __len__. rewrite (wf_length _ Hwf).
  by rewrite Hraw in *.
Qed.

(** The guard on an object whose cursor is in [0, length], entered with a
    target that is not negative: the body runs with the cursor at
    [min(target, length)]; what it returns or raises is what the guard
    returns or raises; the cursor is put back. *)
Lemma seek_wf {A} (target : Z) (body : action A) (s : CodeStream) :
  0 ≤ pc s ≤ __len__ s → 0 ≤ target →
  let s1 := set_stream {| _buffer := _buffer (stream s);
                          _pos := Z.min target (__len__ s) |} s in
  __len__ (body s1).2 = __len__ s →
  seek target body s
  = ((body s1).1,
     set_stream {| _buffer := _buffer (stream (body s1).2); _pos := pc s |}
       (body s1).2).
Proof.
  intros Hpc Htarget s1 Hlen.
  unfold seek, action_bind, pc_get. rewrite pc_set_nonneg by lia.
  fold s1. unfold try_finally. destruct (body s1) as [r s2]. simpl in *.
  rewrite pc_set_nonneg by lia. rewrite Hlen.
  by replace (Z.min (pc s) (__len__ s)) with (pc s) by lia.
Qed.

(** X4. Reading one opcode under the guard is indexing: for a position
    [i >= 0], [with self.seek(i): next(self)] returns the byte [self[i]]
    when [i] is inside the code and [STOP] when it is not, and leaves the
    object exactly as it was. *)
Theorem seek_next_is_getitem (code_bytes : list Z) (ops : list op) (i : Z) :
  let self := run_ops ops (__init__ code_bytes) in
  0 ≤ i →
  seek i __next__ self
  = (if i <? __len__ self then (__getitem__ i self).1 else Return STOP, self).
Proof.
  intros self Hi.
  pose proof (wf_reachable code_bytes ops) as Hwf. fold self in Hwf.
  pose proof (preserves_pc_set i self) as (_ & Hwf1 & _). specialize (Hwf1 Hwf).
  pose proof Hwf as [W1 W2 W3].
  rewrite seek_wf;
    [|done|done|by unfold __len__; rewrite (ev_len _ _ (proj1 (preserves_next _)))].
  rewrite pc_set_nonneg in Hwf1 by (unfold __len__ in *; lia).
  simpl in Hwf1. rewrite (next_wf _ Hwf1). simpl.
  unfold pc, BytesIO_.tell, __len__, len in *. simpl. f_equal.
  - unfold __getitem__. simpl. rewrite bytes_getitem_nonneg by done.
    destruct (Z.ltb_spec i (_length_cache self)).
    + replace (Z.min i (_length_cache self)) with i by lia.
      destruct (lookup_lt_is_Some_2 (_raw_code_bytes self) (Z.to_nat i)) as [x Hx];
        [lia|]. by rewrite Hx.
    + by rewrite (proj2 (lookup_ge_None _ _)) by lia.
  - rewrite <- W1. by destruct self as [[buffer p] ? ? ? ?].
Qed.

(** X5. Entering the guard with a negative target raises: the body does
    not run and the object is exactly as it was, whatever the object.  The
    exception is the stream's, for the position [min(target, length)] it
    is asked to seek: [ValueError], and [OverflowError] when that position
    is below the least [Py_ssize_t]. *)
Theorem seek_negative_target_raises {A} (target : Z) (body : action A)
    (self : CodeStream) :
  target < 0 →
  seek target body self
  = (Raise (if Z.min target (__len__ self) <? ssize_t_min
            then OverflowError else ValueError), self).
Proof.
  intros Htarget. unfold seek, action_bind, pc_get.
  by rewrite pc_set_negative by lia.
Qed.

(** X6. The guard with a target [>= 0], on an object whose cursor is in
    [0, length] and for a body that keeps the cached length: the body runs
    on the object with the cursor at [min(target, length)]; the guard
    returns what the body returns and raises what the body raises; and the
    object after the guard is the object the body left, with the cursor
    back where it was before the guard. *)
Theorem seek_runs_body_then_restores {A} (target : Z) (body : action A)
    (self : CodeStream) :
  0 ≤ pc self ≤ __len__ self → 0 ≤ target →
  (∀ s, __len__ (body s).2 = __len__ s) →
  let entered := (pc_set target self).2 in
  pc entered = Z.min target (__len__ self) ∧
  (seek target body self).1 = (body entered).1 ∧
  (seek target body self).2
  = set_stream {| _buffer := _buffer (stream (body entered).2); _pos := pc self |}
      (body entered).2.
Proof.
  intros Hpc Htarget Hbody entered.
  rewrite seek_wf; [|done|done|by rewrite Hbody].
  subst entered. by rewrite pc_set_nonneg by lia.
Qed.

End Reading.

(** ** The shape of the classification *)

Section Structure.
Context `{opcode_values}.

Lemma forallb_false_elem {A} (f : A → bool) (l : list A) :
  forallb f l = false ↔ ∃ x, x ∈ l ∧ f x = false.
Proof.
  induction l as [|x l IH]; simpl.
  - split; [done|]. by intros (x & ?%elem_of_nil & _).
  - rewrite andb_false_iff, IH. split.
    + intros [Hx|(y & Hy & Hfy)]; [exists x|exists y]; split; auto; by constructor.
    + intros (y & [->|Hy]%elem_of_cons & Hfy); [by left|right; eauto].
Qed.

(** What the generator yields: the positions of the lookback window that
    hold a push wide enough to reach [p]. *)
Lemma yields_disqualifying_from (raw : list Z) (p : Z) (bs : list Z) (d : Z) :
  (∀ b, b ∈ bs → 0 ≤ p - b < len raw) →
  d ∈ yields (disqualifying_from raw p bs) ↔
  ∃ b opcode, b ∈ bs ∧ d = p - b ∧ raw !! Z.to_nat d = Some opcode ∧
              PUSH1 + (b - 1) ≤ opcode ≤ PUSH32.
Proof.
  induction bs as [|b bs IH]; intros Hbs.
  { split; [by intros ?%elem_of_nil|]. by intros (b & ? & ?%elem_of_nil & _). }
  assert (0 ≤ p - b < len raw) as Hb by (apply Hbs; left).
  destruct (lookup_lt_is_Some_2 raw (Z.to_nat (p - b))) as [x Hx];
    [unfold len in Hb; lia|].
  assert (bytes_getitem raw (p - b) = Return x) as Hget
    by (rewrite bytes_getitem_nonneg by lia; by rewrite Hx).
  assert (d ∈ yields (disqualifying_from raw p bs) ↔
          ∃ b' opcode, b' ∈ bs ∧ d = p - b' ∧ raw !! Z.to_nat d = Some opcode ∧
                       PUSH1 + (b' - 1) ≤ opcode ≤ PUSH32) as IH'
    by (apply IH; intros; apply Hbs; by right).
  destruct (decide (PUSH1 + (b - 1) ≤ x ≤ PUSH32)) as [Hg|Hg].
  - rewrite (disqualifying_from_yield _ _ _ _ x Hget Hg). simpl.
    rewrite elem_of_cons, IH'. split.
    + intros [->|(b' & o & Hb' & Hrest)].
      * exists b, x. split; [left|done].
      * exists b', o. split; [by right|done].
    + intros (b' & o & [->|Hb']%elem_of_cons & Hd & Hrest); [by left|].
      right. by exists b', o.
  - rewrite (disqualifying_from_skip _ _ _ _ x Hget Hg), IH'. split.
    + intros (b' & o & Hb' & Hrest). exists b', o. split; [by right|done].
    + intros (b' & o & [->|Hb']%elem_of_cons & -> & Ho & Hg'); [|by exists b', o].
      rewrite Hx in Ho. by injection Ho as <-.
Qed.

Lemma lookback_yields (raw : list Z) (p d : Z) :
  p ≤ len raw →
  d ∈ yields (disqualifying_from raw p (range_down (Z.min 32 p))) ↔
  0 ≤ d < p ∧ p - d ≤ 32 ∧
  ∃ opcode, raw !! Z.to_nat d = Some opcode ∧ PUSH1 + (p - d - 1) ≤ opcode ≤ PUSH32.
Proof.
  intros Hp. rewrite yields_disqualifying_from
    by (intros b Hb%elem_of_range_down; lia).
  split.
  - intros (b & o & Hb%elem_of_range_down & -> & Ho & Hg).
    split; [lia|]. split; [lia|]. exists o. split; [done|].
    by replace (p - (p - b) - 1) with (b - 1) by lia.
  - intros (Hd & H32 & o & Ho & Hg). exists (p - d), o.
    split; [apply elem_of_range_down; lia|]. split; [lia|]. done.
Qed.

(** A position is data exactly when a real opcode that the generator
    yields for it exists. *)
Lemma real_opcode_false_iff (raw : list Z) (p : Z) :
  real_opcode raw p = false ↔
  ∃ d, d ∈ yields (disqualifying_from raw p (range_down (Z.min 32 p))) ∧
       real_opcode raw d = true.
Proof.
  rewrite real_opcode_unfold, forallb_false_elem.
  split; intros (d & Hd & Hr); exists d; (split; [done|]);
    by destruct (real_opcode raw d).
Qed.

(** The bytes a real push reaches are data. *)
Lemma real_opcode_data (raw : list Z) (d p opcode : Z) :
  p ≤ len raw → 0 ≤ d < p → p - d ≤ 32 →
  raw !! Z.to_nat d = Some opcode → PUSH1 + (p - d - 1) ≤ opcode ≤ PUSH32 →
  real_opcode raw d = true →
  real_opcode raw p = false.
Proof.
  intros Hp Hd H32 Ho Hg Hr. apply real_opcode_false_iff. exists d.
  split; [|done]. apply lookback_yields; eauto.
Qed.

(** The position after a real opcode and its data is a real opcode. *)
Lemma real_opcode_next (raw : list Z) (d opcode : Z) :
  PUSH32 ≤ PUSH1 + 31 →
  0 ≤ d → raw !! Z.to_nat d = Some opcode → real_opcode raw d = true →
  let width := if (PUSH1 <=? opcode) && (opcode <=? PUSH32)
               then opcode - PUSH1 + 1 else 0 in
  d + 1 + width ≤ len raw →
  real_opcode raw (d + 1 + width) = true.
Proof.
  intros Htable Hd Ho Hr width Hp.
  assert (0 ≤ width ∧ (0 < width → PUSH1 ≤ opcode ≤ PUSH32 ∧ width = opcode - PUSH1 + 1))
    as [Hw0 Hw].
  { subst width.
    destruct (Z.leb_spec PUSH1 opcode), (Z.leb_spec opcode PUSH32); simpl; lia. }
  assert (¬ (PUSH1 + width ≤ opcode ≤ PUSH32)) as Hshort.
  { subst width.
    destruct (Z.leb_spec PUSH1 opcode), (Z.leb_spec opcode PUSH32); simpl; lia. }
  set (p := d + 1 + width) in *.
  destruct (real_opcode raw p) eqn:Hrp; [done|exfalso].
  apply real_opcode_false_iff in Hrp as (d' & Hd' & Hr').
  apply lookback_yields in Hd' as (Hd'p & H32 & o' & Ho' & Hg'); [|done].
  destruct (Z.lt_trichotomy d' d) as [Hlt|[->|Hgt]].
  - (* an earlier push that reaches [p] reaches [d] *)
    assert (real_opcode raw d = false) as Hrd; [|congruence].
    apply (real_opcode_data raw d' d o'); auto; lia.
  - (* the opcode at [d] does not reach [p] *)
    rewrite Ho in Ho'. injection Ho' as <-.
    apply Hshort. split; [|lia]. replace (PUSH1 + width) with (PUSH1 + (p - d - 1)); lia.
  - (* a position between [d] and [p] is data of [d] *)
    assert (real_opcode raw d' = false) as Hrd'; [|congruence].
    destruct Hw as [Hpush Hwidth]; [lia|].
    apply (real_opcode_data raw d d' opcode); auto; lia.
Qed.

(** On every object a caller can have, a call that the stack admits
    returns the memo-free classification, and [False] beyond the length. *)
Lemma classify_reachable (code_bytes : list Z) (ops : list op)
    (depth : nat) (p : Z) :
  (Z.to_nat p < depth)%nat →
  (is_valid_opcode depth p (run_ops ops (__init__ code_bytes))).1
  = Return ((p <? len code_bytes) && real_opcode code_bytes p).
Proof.
  intros Hdepth.
  destruct (is_valid_opcode_returns depth p _ (wf_reachable code_bytes ops) Hdepth)
    as (b & s' & Hcall).
  rewrite Hcall. simpl. f_equal. by eapply is_valid_opcode_agrees.
Qed.

Lemma live_reachable (code_bytes : list Z) (ops : list op) (depth : nat) (d : Z) :
  (is_valid_opcode depth d (run_ops ops (__init__ code_bytes))).1 = Return true →
  d < len code_bytes ∧ real_opcode code_bytes d = true.
Proof.
  destruct (is_valid_opcode depth d _) as [r s'] eqn:Hcall. simpl. intros ->.
  apply is_valid_opcode_agrees in Hcall. symmetry in Hcall.
  apply andb_true_iff in Hcall as [?%Z.ltb_lt ?]. done.
Qed.

(** The loop does with another stream in place what it does without,
    when the recursive calls do. *)
Lemma for_disqualifier_set_stream (check : Z → action bool) (io : BytesIO)
    (p : Z) (g : generator Z) (s : CodeStream) :
  (∀ d s', check d (set_stream io s')
           = ((check d s').1, set_stream io (check d s').2)) →
  for_disqualifier check p g (set_stream io s)
  = ((for_disqualifier check p g s).1,
     set_stream io (for_disqualifier check p g s).2).
Proof.
  intros Hcheck. revert s.
  induction g as [|d rest IH|e]; intros s; simpl; [done| |done].
  unfold action_bind. rewrite Hcheck.
  destruct (check d s) as [[[]|e] s1]; simpl; [done|apply IH|done].
Qed.

(** X7. The classification neither reads nor moves the cursor: on any
    object, with any other stream in its place, [is_valid_opcode] returns
    or raises the same and grows the memo the same, and the stream is as
    it was after the call. *)
Theorem is_valid_opcode_ignores_cursor (depth : nat) (p : Z) (self : CodeStream)
    (io : BytesIO) :
  is_valid_opcode depth p (set_stream io self)
  = ((is_valid_opcode depth p self).1, set_stream io (is_valid_opcode depth p self).2) ∧
  stream (is_valid_opcode depth p self).2 = stream self.
Proof.
  split; [|apply (is_valid_opcode_spec depth p self)].
  revert p self. induction depth as [|depth IH]; intros p self; [done|]. simpl.
  destruct (p >=? _length_cache self); [done|].
  destruct (decide (p ∈ invalid_positions self)); [done|].
  destruct (decide (p ∈ valid_positions self)); [done|].
  apply (for_disqualifier_set_stream _ io p
           (_potentially_disqualifying_opcode_positions self p) self).
  intros d s'. apply IH.
Qed.

(** X8. The memo changes no answer: on every object a caller can have,
    whatever was classified before, a call that the stack admits returns
    what the same call returns on a new object over the same code. *)
Theorem is_valid_opcode_history_independent (code_bytes : list Z) (ops : list op)
    (depth depth' : nat) (p : Z) :
  (Z.to_nat p < depth)%nat → (Z.to_nat p < depth')%nat →
  (is_valid_opcode depth p (run_ops ops (__init__ code_bytes))).1
  = (is_valid_opcode depth' p (__init__ code_bytes)).1.
Proof.
  intros Hdepth Hdepth'.
  rewrite (classify_reachable code_bytes ops depth p Hdepth).
  symmetry. apply (classify_reachable code_bytes [] depth' p Hdepth').
Qed.

(** X9. "An opcode is not valid, iff it is the data following a PUSH": on
    every object a caller can have, a position [p] inside the code is
    answered [False] exactly when some position [d] at most 32 bytes
    before it holds a push opcode of width at least [p - d] and is itself
    answered [True]. *)
Theorem invalid_iff_data_of_live_push (code_bytes : list Z) (ops : list op)
    (depth : nat) (p : Z) :
  let self := run_ops ops (__init__ code_bytes) in
  0 ≤ p < __len__ self → (Z.to_nat p < depth)%nat →
  (is_valid_opcode depth p self).1 = Return false ↔
  ∃ d opcode,
    0 ≤ d < p ∧ p - d ≤ 32 ∧
    code_bytes !! Z.to_nat d = Some opcode ∧
    PUSH1 + (p - d - 1) ≤ opcode ≤ PUSH32 ∧
    (is_valid_opcode depth d self).1 = Return true.
Proof.
  intros self Hp Hdepth. subst self.
  unfold __len__ in Hp.
  rewrite (wf_length _ (wf_reachable code_bytes ops)), raw_reachable in Hp.
  rewrite classify_reachable by done.
  destruct (Z.ltb_spec p (len code_bytes)); [|lia]. simpl.
  split.
  - intros [= Hr]. apply real_opcode_false_iff in Hr as (d & Hd & Hr).
    apply lookback_yields in Hd as (Hd & H32 & opcode & Ho & Hg); [|lia].
    exists d, opcode. do 4 (split; [done|]).
    rewrite classify_reachable by lia. rewrite Hr.
    by destruct (Z.ltb_spec d (len code_bytes)); [|lia].
  - intros (d & opcode & Hd & H32 & Ho & Hg & Hlive).
    apply live_reachable in Hlive as [_ Hr].
    f_equal. apply (real_opcode_data code_bytes d p opcode); auto; lia.
Qed.

(** X10. With push widths of at most 32 in the opcode table, on every
    object a caller can have: when position [d] is answered [True], the
    position after it and its data, [d + 1] for any opcode but a push and
    [d + 1 + width] for a push, is answered [True] too when it is inside
    the code. *)
Theorem position_after_live_instruction_is_valid (code_bytes : list Z)
    (ops : list op) (depth depth' : nat) (d opcode : Z) :
  let self := run_ops ops (__init__ code_bytes) in
  let width := if (PUSH1 <=? opcode) && (opcode <=? PUSH32)
               then opcode - PUSH1 + 1 else 0 in
  PUSH32 ≤ PUSH1 + 31 →
  0 ≤ d → code_bytes !! Z.to_nat d = Some opcode →
  (is_valid_opcode depth d self).1 = Return true →
  d + 1 + width < __len__ self → (Z.to_nat (d + 1 + width) < depth')%nat →
  (is_valid_opcode depth' (d + 1 + width) self).1 = Return true.
Proof.
  intros self width Htable Hd Ho Hlive Hp Hdepth'. subst self.
  unfold __len__ in Hp.
  rewrite (wf_length _ (wf_reachable code_bytes ops)), raw_reachable in Hp.
  apply live_reachable in Hlive as [_ Hr].
  rewrite classify_reachable by done.
  destruct (Z.ltb_spec (d + 1 + width) (len code_bytes)); [|lia]. simpl.
  f_equal. apply real_opcode_next; auto. fold width. lia.
Qed.

(** X11. On every object a caller can have over a code that is not empty,
    position 0 is answered [True]. *)
Theorem first_position_is_valid (code_bytes : list Z) (ops : list op) (depth : nat) :
  let self := run_ops ops (__init__ code_bytes) in
  0 < __len__ self →
  (is_valid_opcode (S depth) 0 self).1 = Return true.
Proof.
  intros self Hlen. apply is_valid_opcode_no_candidate.
  - apply memo_sound_reachable.
  - done.
  - by unfold _potentially_disqualifying_opcode_positions.
Qed.

(** X12. On every object a caller can have over a code with no push
    opcode in it, every position inside the code is answered [True], and
    without recursion. *)
Theorem code_without_push_is_all_valid (code_bytes : list Z) (ops : list op)
    (depth : nat) (p : Z) :
  let self := run_ops ops (__init__ code_bytes) in
  Forall (λ opcode, ¬ (PUSH1 ≤ opcode ≤ PUSH32)) code_bytes →
  0 ≤ p < __len__ self →
  (is_valid_opcode (S depth) p self).1 = Return true.
Proof.
  intros self Hcode Hp.
  pose proof (wf_reachable code_bytes ops) as Hwf. fold self in Hwf.
  pose proof (raw_reachable code_bytes ops) as Hraw. fold self in Hraw.
  unfold __len__ in Hp.
  apply is_valid_opcode_no_candidate; [apply memo_sound_reachable|lia|].
  assert (p < len (_raw_code_bytes self)) as Hin
    by (rewrite <- (wf_length _ Hwf); lia).
  pose proof (potentially_disqualifying_exhausts self p Hin) as Hex.
  unfold _potentially_disqualifying_opcode_positions in *.
  destruct (disqualifying_from _ _ _) as [|d rest|e] eqn:Hg; [done| |done].
  exfalso.
  assert (d ∈ yields (disqualifying_from (_raw_code_bytes self) p
                        (range_down (Z.min 32 p)))) as Hd
    by (rewrite Hg; left).
  apply lookback_yields in Hd as (Hd & _ & opcode & Ho & Hg'); [|lia].
  rewrite Hraw in Ho.
  apply (proj1 (Forall_lookup _ _) Hcode _ _ Ho). lia.
Qed.

(** The loop raises nothing but what the recursive calls raise, when the
    generator ends by exhaustion. *)
Lemma for_disqualifier_raises (check : Z → action bool) (p : Z)
    (g : generator Z) (s : CodeStream) (e : exn) :
  exhausts g →
  (∀ d s', d ∈ yields g → wf s' →
     wf (check d s').2 ∧ ((check d s').1 = Raise e → e = RecursionError)) →
  wf s →
  (for_disqualifier check p g s).1 = Raise e → e = RecursionError.
Proof.
  revert s. induction g as [|d rest IH|e']; intros s Hg Hcheck Hs; simpl in *;
    [done| |done].
  unfold action_bind.
  destruct (Hcheck d s) as [Hs1 He]; [left|done|].
  destruct (check d s) as [[[]|e1] s1]; simpl in *; [done| |done].
  apply IH; auto. intros; apply Hcheck; auto. by right.
Qed.

(** X13. On every object a caller can have, [is_valid_opcode] returns a
    boolean or raises [RecursionError]: the bytes it indexes are always
    inside the code, so it never raises [IndexError], for any position,
    negative ones and ones beyond the length included. *)
Theorem is_valid_opcode_raises_only_RecursionError (code_bytes : list Z)
    (ops : list op) (depth : nat) (p : Z) :
  let r := (is_valid_opcode depth p (run_ops ops (__init__ code_bytes))).1 in
  (∃ b, r = Return b) ∨ r = Raise RecursionError.
Proof.
  intros r.
  assert (∀ e, r = Raise e → e = RecursionError) as Hraise;
    [|destruct r as [b|e]; [left; eauto|right; by rewrite (Hraise e)]].
  subst r. generalize (wf_reachable code_bytes ops).
  generalize (run_ops ops (__init__ code_bytes)) as s.
  revert p. induction depth as [|depth IH]; intros p s Hs e; simpl; [congruence|].
  destruct (Z.geb_spec p (_length_cache s)); [done|].
  destruct (decide (p ∈ invalid_positions s)); [done|].
  destruct (decide (p ∈ valid_positions s)); [done|].
  apply for_disqualifier_raises; [| |done].
  - apply potentially_disqualifying_exhausts. rewrite <- (wf_length _ Hs). lia.
  - intros d s' _ Hs'. split; [by apply (preserves_is_valid_opcode depth d s')|].
    by apply IH.
Qed.

(** X15. A call that returns for a position inside the length, or a
    negative one, has memoised the position in the set that matches the
    answer; and whatever a call memoises, returning or raising, is at or
    before the position it was asked. *)
Theorem is_valid_opcode_memoises_at_or_before (depth : nat) (p : Z)
    (self : CodeStream) :
  let r := is_valid_opcode depth p self in
  (p < __len__ self →
   (r.1 = Return true → p ∈ valid_positions r.2 ∧ p ∉ invalid_positions r.2) ∧
   (r.1 = Return false → p ∈ invalid_positions r.2)) ∧
  (∀ q, q ∈ valid_positions r.2 → q ∈ valid_positions self ∨ q ≤ p) ∧
  (∀ q, q ∈ invalid_positions r.2 → q ∈ invalid_positions self ∨ q ≤ p).
Proof.
  intros r. destruct (is_valid_opcode_spec depth p self) as ([_ _ Hv Hi] & Ht & Hf).
  fold r in Hv, Hi, Ht, Hf. unfold __len__.
  split; [|done]. intros Hp. split.
  - intros Hr. by destruct (Ht Hr) as (_ & ? & ?).
  - intros Hr. destruct (Hf Hr); [lia|done].
Qed.

End Structure.

(** ** Invariants of the memo alone

    A property of the object that does not look at the stream and that
    every classification keeps is kept by everything a caller can do. *)

Section MemoInvariant.
Context `{opcode_values}.
Variable I : CodeStream → Prop.
Hypothesis I_blind : ∀ io s, I s → I (set_stream io s).
Hypothesis I_classify : ∀ depth p s, I s → I (is_valid_opcode depth p s).2.

Lemma keeps_ret {A} (a : A) : keeps I (action_ret a).
Proof. by intros s. Qed.

Lemma keeps_pure {A} (f : CodeStream → outcome A) : keeps I (λ self, (f self, self)).
Proof. by intros s. Qed.

Lemma keeps_bind {A B} (m : action A) (k : A → action B) :
  keeps I m → (∀ a, keeps I (k a)) → keeps I (action_bind m k).
Proof.
  intros Hm Hk s Hs. unfold action_bind. specialize (Hm s Hs).
  destruct (m s) as [[a|e] s1]; simpl in *; [by apply Hk|done].
Qed.

Lemma keeps_try_finally {A} (body : action A) (handler : action unit) :
  keeps I body → keeps I handler → keeps I (try_finally body handler).
Proof.
  intros Hb Hh s Hs. unfold try_finally. specialize (Hb s Hs).
  destruct (body s) as [r s1]. specialize (Hh s1 Hb).
  by destruct (handler s1) as [[[]|e] s2].
Qed.

Lemma keeps_read (size : Z) : keeps I (read size).
Proof.
  intros s Hs. unfold read.
  destruct (BytesIO_.read size (stream s)) as [r io]. by apply I_blind.
Qed.

Lemma keeps_pc_set (value : Z) : keeps I (pc_set value).
Proof.
  intros s Hs. unfold pc_set.
  destruct (BytesIO_.seek _ (stream s)) as [[v|e] io]; by apply I_blind.
Qed.

Lemma keeps_next : keeps I __next__.
Proof.
  apply keeps_bind; [apply keeps_read|].
  intros [|x l]; [apply keeps_ret|apply keeps_pure].
Qed.

Lemma keeps_run_block (run : op → action unit) (body : list op) :
  Forall (λ o, keeps I (run o)) body → keeps I (run_block run body).
Proof.
  induction 1; simpl; [apply keeps_ret|]. apply keeps_bind; auto.
Qed.

Lemma keeps_run_op (o : op) : keeps I (run_op o).
Proof.
  induction o as [o IH] using op_ind.
  assert (∀ A (m : action A), keeps I m → keeps I (void m)) as Hvoid
    by (intros A m Hm; apply keeps_bind; [done|intros; apply keeps_ret]).
  destruct o; simpl.
  - apply Hvoid, keeps_read.
  - apply Hvoid, keeps_pure.
  - apply Hvoid, keeps_next.
  - apply Hvoid, keeps_pure.
  - apply Hvoid. unfold peek.
    apply keeps_bind; [apply keeps_pure|]. intros current_pc.
    apply keeps_bind; [apply keeps_next|]. intros next_opcode.
    apply keeps_bind; [apply keeps_pc_set|]. intros _. apply keeps_ret.
  - apply Hvoid, keeps_pure.
  - apply keeps_pc_set.
  - apply Hvoid. intros s. apply I_classify.
  - unfold seek.
    apply keeps_bind; [apply keeps_pure|]. intros anchor_pc.
    apply keeps_bind; [apply keeps_pc_set|]. intros _.
    apply keeps_try_finally; [apply keeps_run_block, IH|apply keeps_pc_set].
  - intros s Hs. apply (keeps_run_block run_op body IH s Hs).
  - by intros s.
Qed.

Lemma keeps_run_ops (ops : list op) (s : CodeStream) : I s → I (run_ops ops s).
Proof.
  revert s. induction ops as [|o ops IH]; intros s Hs; simpl; [done|].
  apply IH. by apply keeps_run_op.
Qed.

End MemoInvariant.

Section MemoBounds.
Context `{opcode_values}.

(** X16. On every object a caller can have, every memoised position is
    before the length of the code, and every position memoised as invalid
    is at least 1 (a position memoised as valid can be negative). *)
Theorem memo_positions_are_before_length (code_bytes : list Z) (ops : list op) :
  let self := run_ops ops (__init__ code_bytes) in
  (∀ q, q ∈ valid_positions self → q < __len__ self) ∧
  (∀ q, q ∈ invalid_positions self → 0 < q < __len__ self).
Proof.
  intros self.
  assert (∀ q, q ∈ valid_positions self ∪ invalid_positions self → q < __len__ self)
    as Hupper.
  { apply (keeps_run_ops
             (λ s, ∀ q, q ∈ valid_positions s ∪ invalid_positions s → q < __len__ s)).
    - done.
    - intros depth p s Hs q Hq.
      destruct (is_valid_opcode_spec depth p s) as ([E _ Hv Hi] & _).
      unfold __len__ in *. rewrite (ev_len _ _ E).
      destruct (Z.lt_ge_cases p (_length_cache s)) as [Hp|Hp].
      + apply elem_of_union in Hq as [Hq|Hq].
        * destruct (Hv q Hq); [apply Hs; set_solver|lia].
        * destruct (Hi q Hq); [apply Hs; set_solver|lia].
      + apply Hs. destruct depth as [|depth]; [done|]. simpl in Hq.
        by destruct (Z.geb_spec p (_length_cache s)); [|lia].
    - intros q. simpl. set_solver. }
  split; [intros q Hq; apply Hupper; set_solver|].
  intros q Hq. split; [|apply Hupper; set_solver].
  apply (memo_sound_reachable code_bytes ops) in Hq.
  apply real_opcode_false_iff in Hq as (d & Hd%lookback_window & _). lia.
Qed.

(** X17. No operation changes the code: on every object a caller can
    have, the raw bytes, the bytes the stream reads and the cached length
    are those [__init__] was given. *)
Theorem code_is_never_modified (code_bytes : list Z) (ops : list op) :
  let self := run_ops ops (__init__ code_bytes) in
  _raw_code_bytes self = code_bytes ∧
  _buffer (stream self) = code_bytes ∧
  __len__ self = len code_bytes.
Proof.
  intros self.
  destruct (run_ops_preserves ops (__init__ code_bytes)) as (E & _).
  fold self in E. unfold __len__.
  by rewrite (ev_raw _ _ E), (ev_buffer _ _ E), (ev_len _ _ E).
Qed.

End MemoBounds.

(** ** The theorems at the EVM's opcode table *)

Section EVM.
#[local] Existing Instance evm_opcode_values.

(** [[PUSH2, PUSH1, 0x00, 0x00]] is [61 60 00 00]. *)
Lemma push2_push1_scenario_evm :
  let self :=
    run_ops [OpIsValidOpcode 2 3; OpIsValidOpcode 2 2; OpRead 1]
      (__init__ [0x61; 0x60; 0x00; 0x00]) in
  (0 < PUSH1 ∧ PUSH1 < PUSH32) ∧
  (is_valid_opcode 2 0 self).1 = Return true ∧
  (is_valid_opcode 2 1 self).1 = Return false ∧
  (is_valid_opcode 2 2 self).1 = Return false ∧
  (is_valid_opcode 2 3 self).1 = Return true.
Proof.
  split; [by vm_compute|].
  exact (push2_push1_scenario [OpIsValidOpcode 2 3; OpIsValidOpcode 2 2; OpRead 1] 0
           eq_refl eq_refl).
Defined.

(** A negative position on the empty code, after another negative
    position was memoised. *)
Lemma is_valid_opcode_negative_evm :
  let self := run_ops [OpIsValidOpcode 1 (-1)] (__init__ []) in
  ((-3 < 0) ∧ ((-3) ∉ invalid_positions self) ∧ ((-3) ∉ valid_positions self)) ∧
  (is_valid_opcode 1 (-3) self).1 = Return true ∧
  (-3) ∈ valid_positions (is_valid_opcode 1 (-3) self).2.
Proof.
  intros self.
  assert (-3 < 0) as H1 by lia.
  assert ((-3) ∉ invalid_positions self) as H2 by (by vm_compute).
  assert ((-3) ∉ valid_positions self) as H3 by (by vm_compute).
  destruct (is_valid_opcode_negative [] [OpIsValidOpcode 1 (-1)]
              0 (-3) H1 H2 H3) as [Hcall Hin].
  split; [done|]. split; [|done]. unfold self. by rewrite Hcall.
Defined.

(** The claim of C3 fails: on 34 [PUSH1] bytes the classification of
    position 33 on a new object raises [RecursionError] with 32 and with
    33 nested activations; it takes 34. *)
Lemma recursion_deeper_than_lookback_window :
  let self := __init__ (replicate 34 PUSH1) in
  (is_valid_opcode 32 33 self).1 = Raise RecursionError ∧
  (is_valid_opcode 33 33 self).1 = Raise RecursionError ∧
  (is_valid_opcode 34 33 self).1 = Return false ∧
  ¬ returns (is_valid_opcode 32 33) self.
Proof.
  intros self. do 3 (split; [by vm_compute|]).
  intros (b & s' & Hcall).
  assert ((is_valid_opcode 32 33 self).1 = Raise RecursionError) as Hraise
    by (by vm_compute).
  by rewrite Hcall in Hraise.
Qed.

Lemma is_valid_opcode_depth_at_most_position_evm :
  let self := __init__ (replicate 34 PUSH1) in
  returns (is_valid_opcode 34 33) self.
Proof.
  apply (is_valid_opcode_depth_at_most_position (replicate 34 PUSH1) [] 34 33);
    [lia|intros _; vm_compute; lia].
Defined.

Lemma is_valid_opcode_beyond_length_evm :
  let self := __init__ [0x60; 0x01] in
  __len__ self ≤ 2 ∧ is_valid_opcode 1 2 self = (Return false, self).
Proof.
  split; [by vm_compute|].
  apply (is_valid_opcode_beyond_length 0 2). by vm_compute.
Defined.

Lemma is_valid_opcode_memo_stable_evm :
  let self := __init__ [0x61; 0x60; 0x00; 0x00] in
  let self1 := (is_valid_opcode 2 2 self).2 in
  let self2 := run_ops [OpRead 3; OpIsValidOpcode 2 1; OpSetPc 0] self1 in
  is_valid_opcode 2 2 self = (Return false, self1) ∧
  is_valid_opcode 1 2 self2 = (Return false, self2).
Proof.
  intros self self1 self2.
  assert (is_valid_opcode 2 2 self = (Return false, self1)) as Hcall
    by (by vm_compute).
  split; [done|].
  apply (is_valid_opcode_memo_stable 2 2 self false self1 _ 0 Hcall).
Defined.

(** A body that moves the cursor, enters a guard of its own and raises. *)
Lemma seek_restores_pc_evm :
  let self := run_ops [OpRead 1] (__init__ [0x61; 0x60; 0x00; 0x00]) in
  let body := run_block run_op [OpSetPc 4; OpSeek 0 [OpNext; OpNext]; OpRaise OtherError] in
  0 ≤ pc self ≤ __len__ self ∧
  (seek 3 body self).1 = Raise OtherError ∧
  pc (seek 3 body self).2 = 1.
Proof.
  intros self body.
  assert (0 ≤ pc self ≤ __len__ self) as Hpc by (by vm_compute).
  split; [done|]. split; [by vm_compute|].
  apply (seek_restores_pc 3 body self Hpc (run_block_keeps_len _)).
Defined.

Lemma next_at_end_returns_STOP_evm :
  let self := run_ops [OpRead 10] (__init__ [0x60; 0x05]) in
  pc self = __len__ self ∧
  next_times 3 self = (Return [STOP; STOP; STOP], self).
Proof.
  intros self.
  assert (pc self = __len__ self) as Hend by reflexivity.
  split; [done|].
  apply (next_at_end_returns_STOP [0x60; 0x05] [OpRead 10] 3 Hend).
Defined.

Lemma pc_setter_clamps_nonnegative_evm :
  let self := run_ops [OpRead 1] (__init__ [0x60; 0x01]) in
  0 ≤ 7 ∧ 0 ≤ pc self ≤ __len__ self ∧ pc (pc_set 7 self).2 = 2.
Proof.
  intros self.
  destruct (pc_setter_clamps_nonnegative [0x60; 0x01] [OpRead 1] 7) as [Hpc Hset].
  split; [lia|]. split; [done|]. fold self in Hset. by rewrite Hset by lia.
Defined.

(** The claim of C10 fails at a negative target: the setter raises. *)
Lemma pc_setter_raises_on_negative_target :
  let self := __init__ [0x60; 0x01] in
  pc_set (-1) self = (Raise ValueError, self) ∧
  ¬ (∃ self', pc_set (-1) self = (Return tt, self') ∧
              pc self' = Z.min (-1) (__len__ self)).
Proof.
  intros self. split; [done|]. by intros (self' & Hcall & _).
Qed.

(** Witnesses of the further properties. *)


Lemma read_then_read_evm :
  let self := run_ops [OpRead 1] (__init__ [0x61; 0x60; 0x00; 0x00]) in
  (0 ≤ 2 ∧ 0 ≤ 5 ∧ 2 + 5 ≤ ssize_t_max) ∧
  (a <- read 2 ;; b <- read 5 ;; action_ret (a ++ b)) self = read 7 self.
Proof.
  assert (2 + 5 ≤ ssize_t_max) as Hfits by (by vm_compute).
  split; [split; [lia|split; [lia|done]]|].
  apply (read_then_read [0x61; 0x60; 0x00; 0x00] [OpRead 1] 2 5); [lia|lia|done].
Defined.

Lemma seek_next_is_getitem_evm :
  let self := run_ops [OpRead 3] (__init__ [0x61; 0x60; 0x00; 0x00]) in
  0 ≤ 1 ∧ seek 1 __next__ self = (Return 0x60, self).
Proof.
  split; [lia|].
  apply (seek_next_is_getitem [0x61; 0x60; 0x00; 0x00] [OpRead 3] 1). lia.
Defined.

Lemma seek_negative_target_raises_evm :
  let self := run_ops [OpRead 3] (__init__ [0x61; 0x60; 0x00; 0x00]) in
  -2 < 0 ∧
  seek (-2) (read 1) self = (Raise ValueError, self) ∧
  seek (- 2 ^ 64) (read 1) self = (Raise OverflowError, self).
Proof.
  split; [lia|]. split.
  - apply (seek_negative_target_raises (-2)). lia.
  - apply (seek_negative_target_raises (- 2 ^ 64)). lia.
Defined.

Lemma seek_runs_body_then_restores_evm :
  let self := run_ops [OpRead 3] (__init__ [0x61; 0x60; 0x00; 0x00]) in
  let body := run_block run_op [OpIsValidOpcode 2 1; OpRaise OtherError] in
  0 ≤ pc self ≤ __len__ self ∧
  (seek 9 body self).1 = Raise OtherError ∧
  pc (seek 9 body self).2 = 3 ∧
  invalid_positions (seek 9 body self).2 = {[1]}.
Proof.
  intros self body.
  assert (0 ≤ pc self ≤ __len__ self) as Hpc by (by vm_compute).
  destruct (seek_runs_body_then_restores 9 body self Hpc ltac:(lia)
              (run_block_keeps_len _)) as (_ & Hr & Hs).
  split; [done|]. rewrite Hr, Hs. by vm_compute.
Defined.

Lemma is_valid_opcode_history_independent_evm :
  let code := [0x61; 0x60; 0x00; 0x00] in
  (is_valid_opcode 3 2 (run_ops [OpIsValidOpcode 2 1; OpRead 1] (__init__ code))).1
  = (is_valid_opcode 4 2 (__init__ code)).1.
Proof.
  apply (is_valid_opcode_history_independent
           [0x61; 0x60; 0x00; 0x00] [OpIsValidOpcode 2 1; OpRead 1] 3 4 2); lia.
Defined.

Lemma invalid_iff_data_of_live_push_evm :
  let code := [0x61; 0x60; 0x00; 0x00] in
  let self := run_ops [OpRead 1] (__init__ code) in
  (is_valid_opcode 3 2 self).1 = Return false ↔
  ∃ d opcode,
    0 ≤ d < 2 ∧ 2 - d ≤ 32 ∧ code !! Z.to_nat d = Some opcode ∧
    PUSH1 + (2 - d - 1) ≤ opcode ≤ PUSH32 ∧
    (is_valid_opcode 3 d self).1 = Return true.
Proof.
  apply (invalid_iff_data_of_live_push [0x61; 0x60; 0x00; 0x00] [OpRead 1] 3 2);
    [by vm_compute|lia].
Defined.

Lemma position_after_live_instruction_is_valid_evm :
  let self := run_ops [OpRead 1] (__init__ [0x61; 0x60; 0x00; 0x01]) in
  (is_valid_opcode 1 0 self).1 = Return true ∧
  (is_valid_opcode 4 3 self).1 = Return true.
Proof.
  intros self.
  assert ((is_valid_opcode 1 0 self).1 = Return true) as Hlive by (by vm_compute).
  split; [done|].
  pose proof (position_after_live_instruction_is_valid
                [0x61; 0x60; 0x00; 0x01] [OpRead 1] 1 4 0 0x61) as Hnext.
  cbv zeta in Hnext.
  exact (Hnext ltac:(by vm_compute) ltac:(lia) eq_refl Hlive
           ltac:(by vm_compute) ltac:(vm_compute; lia)).
Defined.

Lemma first_position_is_valid_evm :
  let self := run_ops [OpIsValidOpcode 2 1] (__init__ [0x60; 0x60]) in
  0 < __len__ self ∧ (is_valid_opcode 1 0 self).1 = Return true.
Proof.
  split; [by vm_compute|].
  apply (first_position_is_valid [0x60; 0x60] [OpIsValidOpcode 2 1] 0).
  by vm_compute.
Defined.

Lemma code_without_push_is_all_valid_evm :
  let self := run_ops [OpRead 1] (__init__ [0x01; 0x5b; 0x80]) in
  (is_valid_opcode 1 2 self).1 = Return true.
Proof.
  apply (code_without_push_is_all_valid [0x01; 0x5b; 0x80] [OpRead 1] 0 2).
  - repeat (constructor; [cbn; lia|]). constructor.
  - by vm_compute.
Defined.

Lemma push1_run_needs_depth_evm :
  is_valid_opcode 40 40 (__init__ (replicate 50 PUSH1))
  = (Raise RecursionError, __init__ (replicate 50 PUSH1)).
Proof.
  apply (push1_run_needs_depth 50 40 40); [by vm_compute|lia].
Defined.

(** Further runs of the model: [[PUSH1, 0x01, ADD]]; a read that runs
    into the end of the code; a negative [size]; 33 [PUSH1] bytes in a
    row, classified at the last position with 33 activations and not with
    32; arguments that do not fit a [Py_ssize_t]; a guard entered with a
    negative target. *)
Example push1_add_scenario :
  let self := __init__ [0x60; 0x01; 0x01] in
  (is_valid_opcode 2 0 self).1 = Return true ∧
  (is_valid_opcode 2 1 self).1 = Return false ∧
  (is_valid_opcode 2 2 self).1 = Return true.
Proof. by vm_compute. Qed.

Example read_into_the_end :
  let self := run_ops [OpRead 1] (__init__ [0x60; 0x01; 0x01]) in
  (read 5 self).1 = Return [0x01; 0x01] ∧ pc (read 5 self).2 = 3 ∧
  (read (-1) self).1 = Return [0x01; 0x01] ∧
  (read 1 (read 5 self).2).1 = Return [].
Proof. by vm_compute. Qed.

Example push1_run_of_33 :
  let self := __init__ (replicate 33 PUSH1) in
  (is_valid_opcode 33 32 self).1 = Return true ∧
  (is_valid_opcode 32 32 self).1 = Raise RecursionError.
Proof. by vm_compute. Qed.

Example arguments_that_do_not_fit :
  let self := run_ops [OpRead 1] (__init__ [0x60; 0x01; 0x01]) in
  read (2 ^ 63) self = (Raise OverflowError, self) ∧
  read (- 2 ^ 63 - 1) self = (Raise OverflowError, self) ∧
  (read (2 ^ 63 - 1) self).1 = Return [0x01; 0x01] ∧
  pc_set (- 2 ^ 63 - 1) self = (Raise OverflowError, self) ∧
  pc_set (- 2 ^ 63) self = (Raise ValueError, self).
Proof. by vm_compute. Qed.

Example seek_negative_target :
  let self := run_ops [OpRead 2] (__init__ [0x60; 0x01; 0x01]) in
  seek (-1) (void __next__) self = (Raise ValueError, self).
Proof. by vm_compute. Qed.

End EVM.
